(** * Loop Relay: session synchronisation and turn arbitration

    A shallow embedding of the coordination logic of [src/app/page.tsx]:
    the presence-derived queue, the version-stamped state reconciler, the
    leader's turn arbitration, and the loop commit engine.

    Conventions of the embedding.
    - A JavaScript [number] holding a timestamp, a version, a step or an
      index is a [Z]; note velocities (0.9, 0.85) and the tempo read from
      the BPM field, which need not be integral, are rationals.
    - [T | null] and optional values are [option T]; JavaScript truthiness is
      written out where the source relies on it ([!version] is [version = 0],
      a truthy string is a non-empty one).
    - The component [HomeContent] is the record [Peer]: the React state cells
      and refs that the coordination logic reads and writes.  A handler is a
      function [Peer -> Peer]; the values the source obtains from the outside
      world ([Date.now()], [nanoid], the outcome of [channel.publish]) are
      arguments of the handler.
    - [sessionState] and [sessionStateRef.current] are written together by
      every handler, but a handler is a closure of the last render: it sees
      the React state as that render saw it, and the ref as it is now.  The
      cell [sessionState] of [Peer] is the value written last, which is what
      [sessionStateRef.current] holds.  Where the source tests values of the
      render, the state that render saw is an argument of the embedded
      handler ([commitDraftAt]); [renderView] is the peer as the closures of
      that render see it.  The handler without that argument is the same
      code run at a render that shows the value written last. *)

From Stdlib Require Import String Ascii.
From Stdlib Require Import ZArith List Bool Lia Permutation Sorted QArith Qround Lqa
  DecimalString DecimalPos.
Import ListNotations.
Open Scope string_scope.
Open Scope list_scope.
Open Scope Z_scope.

(** ** Data model *)

Inductive Instrument := drums | keys | bass.
Inductive DrumRow := kick | snare | hat | clap.

Definition Instrument_eqb (a b : Instrument) : bool :=
  match a, b with
  | drums, drums | keys, keys | bass, bass => true
  | _, _ => false
  end.

Module Note.
Record t := mk {
  id : string;
  pitch : string;
  step : Z;
  duration : Z;
  velocity : Q
}.
End Note.

Module Loop.
Record t := mk {
  id : string;
  userId : string;
  userName : string;
  userColor : string;
  instrument : Instrument;
  notes : list Note.t;
  (* [synthParams?: Record<string, unknown>]: absent, or a key/value table *)
  synthParams : option (list (string * string));
  createdAt : Z
}.
End Loop.

Module Turn.
Record t := mk {
  userId : string;
  startedAt : Z;
  endsAt : Z
}.
End Turn.

Module SessionState.
Record t := mk {
  bpm : Z;
  loops : list Loop.t;
  activeTurn : option Turn.t;
  version : Z;
  creatorId : option string;
  windowCycles : Z;
  playbackStartedAt : option Z
}.
End SessionState.

Module Participant.
Record t := mk {
  id : string;
  name : string;
  color : string;
  joinedAt : Z
}.
End Participant.

Module Identity.
Record t := mk {
  id : string;
  name : string;
  color : string;
  joinedAt : Z
}.
End Identity.

Definition STEP_COUNT : Z := 16.
Definition DRUM_LOOP_LIMIT : Z := 4.
Definition MELODIC_LOOP_LIMIT : Z := 2.
Definition DRUM_ROWS : list DrumRow := [kick; snare; hat; clap].

(** The [id] of an entry of [DRUM_ROWS]; it is also the pitch of a drum note. *)
Definition DrumRow_id (r : DrumRow) : string :=
  match r with
  | kick => "kick"
  | snare => "snare"
  | hat => "hat"
  | clap => "clap"
  end.

(** ** Arrays *)

(** [Array.prototype.sort] with the comparator [(a, b) => key a - key b].
    The sort is stable (ECMAScript 2019): elements whose keys are equal keep
    their relative order.  A stable sort has one possible result, computed
    here by insertion from the right. *)
Section StableSort.
Context {A : Type} (key : A -> Z).

Fixpoint insertBy (x : A) (l : list A) : list A :=
  match l with
  | [] => [x]
  | y :: l' => if key x <=? key y then x :: l else y :: insertBy x l'
  end.

Definition sortBy (l : list A) : list A := fold_right insertBy [] l.
End StableSort.

(** [Array.prototype.indexOf] on strings: the first index, or [-1]. *)
Fixpoint indexOf (x : string) (l : list string) : Z :=
  match l with
  | [] => -1
  | y :: l' =>
      if String.eqb y x then 0
      else let i := indexOf x l' in if i <? 0 then -1 else i + 1
  end.

(** [Array.prototype.includes] on strings. *)
Definition includes (x : string) (l : list string) : bool :=
  existsb (String.eqb x) l.

(** ** Presence queue *)

Definition queueFromPresence (members : list Participant.t) : list Participant.t :=
  sortBy Participant.joinedAt members.

(** ** The component state *)

(** [Record<DrumRow, boolean[]>] *)
Record DrumGrid := {
  kickRow : list bool;
  snareRow : list bool;
  hatRow : list bool;
  clapRow : list bool
}.

Definition gridRow (g : DrumGrid) (r : DrumRow) : list bool :=
  match r with
  | kick => kickRow g
  | snare => snareRow g
  | hat => hatRow g
  | clap => clapRow g
  end.

Definition createEmptyDrums : DrumGrid :=
  let off := repeat false (Z.to_nat STEP_COUNT) in
  {| kickRow := off; snareRow := off; hatRow := off; clapRow := off |}.

Record Peer := {
  identity : Identity.t;
  identityReady : bool;
  (* [channelRef.current] is set *)
  channelRef : bool;
  participants : list Participant.t;
  sessionState : SessionState.t;
  stateLoaded : bool;
  draftInstrument : Instrument;
  drumsDraft : DrumGrid;
  keysDraft : list Note.t;
  bassDraft : list Note.t;
  (* [keysScale.notes] and [bassScale.notes] of the current render *)
  keysScaleNotes : list string;
  bassScaleNotes : list string;
  replaceTarget : option string;
  (* every payload handed to [channel.publish("state", _)], newest first *)
  published : list SessionState.t;
  (* number of [console.error("publish failed", _)] calls so far *)
  publishFailures : nat
}.

Definition withSession (p : Peer) (st : SessionState.t) (loaded : bool) : Peer :=
  {| identity := identity p;
     identityReady := identityReady p;
     channelRef := channelRef p;
     participants := participants p;
     sessionState := st;
     stateLoaded := loaded;
     draftInstrument := draftInstrument p;
     drumsDraft := drumsDraft p;
     keysDraft := keysDraft p;
     bassDraft := bassDraft p;
     keysScaleNotes := keysScaleNotes p;
     bassScaleNotes := bassScaleNotes p;
     replaceTarget := replaceTarget p;
     published := published p;
     publishFailures := publishFailures p |}.

(** The state the component starts from ([useState] initial value). *)
Definition initialSessionState : SessionState.t :=
  SessionState.mk 120 [] None 0 None 4 None.

(** ** State reconciler *)

(** The guard of the ["state"] subscription:
    [!local.version || incoming.version >= local.version]. *)
Definition accepts (local incoming : SessionState.t) : bool :=
  (SessionState.version local =? 0)
  || (SessionState.version incoming >=? SessionState.version local).

(** The ["state"] subscription handler; [data] is [msg.data]. *)
Definition onStateMessage (data : option SessionState.t) (p : Peer) : Peer :=
  match data with
  | None => p
  | Some incoming =>
      if accepts (sessionState p) incoming
      then withSession p incoming true
      else p
  end.

(** A relay message as [channel.history] returns it. *)
Record Message := {
  msgName : string;
  msgData : option SessionState.t
}.

(** The history fetch that follows the subscription in [setup].  [items] is
    [history.items], or [None] when [channel.history] throws (the source
    only warns then). *)
Definition onHistory (items : option (list Message)) (p : Peer) : Peer :=
  match items with
  | None => p
  | Some l =>
      match find (fun item => String.eqb (msgName item) "state") l with
      | Some {| msgData := Some incoming |} => withSession p incoming true
      | _ => p
      end
  end.

(** Live delivery of a sequence of state messages, in arrival order. *)
Definition deliverAll (l : list SessionState.t) (p : Peer) : Peer :=
  fold_left (fun q m => onStateMessage (Some m) q) l p.

(** The peer as the closures of a render see it: [seen] is the
    [sessionState] of that render; the other cells are as in [p]. *)
Definition renderView (seen : SessionState.t) (p : Peer) : Peer :=
  withSession p seen (stateLoaded p).

(** ** Publishing *)

Definition withPublished (p : Peer) (msgs : list SessionState.t) (failures : nat) : Peer :=
  {| identity := identity p;
     identityReady := identityReady p;
     channelRef := channelRef p;
     participants := participants p;
     sessionState := sessionState p;
     stateLoaded := stateLoaded p;
     draftInstrument := draftInstrument p;
     drumsDraft := drumsDraft p;
     keysDraft := keysDraft p;
     bassDraft := bassDraft p;
     keysScaleNotes := keysScaleNotes p;
     bassScaleNotes := bassScaleNotes p;
     replaceTarget := replaceTarget p;
     published := msgs;
     publishFailures := failures |}.

(** [publishState(next)].  The local cell is written first; the payload is
    handed to the channel when there is one.  [ack] is the outcome of the
    promise [channel.publish] returns: on rejection the [catch] handler logs
    and does nothing else. *)
Definition publishState (ack : bool) (next : SessionState.t) (p : Peer) : Peer :=
  let p1 := withSession p next (stateLoaded p) in
  if channelRef p1
  then withPublished p1 (next :: published p1)
         (if ack then publishFailures p1 else S (publishFailures p1))
  else p1.

(** ** Values derived at each render *)

Definition queue (p : Peer) : list Participant.t :=
  queueFromPresence (participants p).

(** [queue[0]?.id === identity.id] *)
Definition isLeader (p : Peer) : bool :=
  match queue p with
  | [] => false
  | q0 :: _ => String.eqb (Participant.id q0) (Identity.id (identity p))
  end.

(** [sessionState.activeTurn?.userId === identity.id] *)
Definition isMyTurn (p : Peer) : bool :=
  match SessionState.activeTurn (sessionState p) with
  | None => false
  | Some t => String.eqb (Turn.userId t) (Identity.id (identity p))
  end.

(** Reading [l[i]].  JavaScript yields [undefined] outside the array; the
    embedding yields the empty string there.  Every read below is at
    [(i + 1) % l.length] with [i >= -1] on a non-empty array, which is inside
    (lemma [nextIndex_in_range]). *)
Definition arrayAt (l : list string) (i : Z) : string :=
  if i <? 0 then EmptyString else nth (Z.to_nat i) l EmptyString.

(** [(currentIdx + 1) % queueIds.length]; [%] is the truncating remainder. *)
Definition nextIndex (currentIdx : Z) (queueIds : list string) : Z :=
  Z.rem (currentIdx + 1) (Z.of_nat (List.length queueIds)).

(** [{ ...st, activeTurn, version }] *)
Definition withTurn (st : SessionState.t) (turn : option Turn.t) (v : Z) : SessionState.t :=
  SessionState.mk (SessionState.bpm st) (SessionState.loops st) turn v
    (SessionState.creatorId st) (SessionState.windowCycles st)
    (SessionState.playbackStartedAt st).

(** [Math.round] on a finite number: the nearest integer, a tie going to the
    larger one. *)
Definition mathRound (x : Q) : Z := Qfloor (x + (1 # 2)).

(** [clampBpm]; its argument is [Number(e.target.value)] of a number field or
    of a slider, a finite number that need not be integral. *)
Definition clampBpm (bpm : Q) : Z := Z.min 180 (Z.max 60 (mathRound bpm)).

(** ** Draft notes *)

(** The notes of one row of the drum grid, from column [step] on. *)
Fixpoint rowNotes (r : DrumRow) (step : Z) (cells : list bool) : list Note.t :=
  match cells with
  | [] => []
  | active :: rest =>
      (if active
       then [Note.mk (DrumRow_id r ++ "-" ++ NilZero.string_of_int (Z.to_int step))
                     (DrumRow_id r) step 1 (9 # 10)]
       else [])
      ++ rowNotes r (step + 1) rest
  end.

Definition drumsToNotes (grid : DrumGrid) : list Note.t :=
  flat_map (fun r => rowNotes r 0 (gridRow grid r)) DRUM_ROWS.

(** The pitch clamp of [getDraftNotes]: a pitch outside the scale becomes
    [scaleNotes[0]] (the empty string stands for [undefined] when the scale
    is empty). *)
Definition clampToScale (scaleNotes : list string) (n : Note.t) : Note.t :=
  if includes (Note.pitch n) scaleNotes then n
  else Note.mk (Note.id n) (hd EmptyString scaleNotes) (Note.step n)
               (Note.duration n) (Note.velocity n).

Definition getDraftNotes (p : Peer) : list Note.t :=
  match draftInstrument p with
  | drums => drumsToNotes (drumsDraft p)
  | keys => sortBy Note.step (map (clampToScale (keysScaleNotes p)) (keysDraft p))
  | bass => sortBy Note.step (map (clampToScale (bassScaleNotes p)) (bassDraft p))
  end.

(** ** Drum sounds in use *)

(** A JavaScript [Set<string>]: its elements in insertion order. *)
Definition setAdd (s : list string) (x : string) : list string :=
  if includes x s then s else s ++ [x].

Definition isDrumLoop (l : Loop.t) : bool := Instrument_eqb (Loop.instrument l) drums.

Definition usedDrumSounds (p : Peer) : list string :=
  let drumLoops := filter isDrumLoop (SessionState.loops (sessionState p)) in
  fold_left
    (fun sounds loop =>
       fold_left (fun s note => setAdd s (Note.pitch note)) (Loop.notes loop) sounds)
    drumLoops [].

(** [drumConflict]: the draft's sounds that a committed drum loop already
    uses, or [null] when there is none (or the draft is not a drum draft). *)
Definition drumConflict (p : Peer) : option (list string) :=
  match draftInstrument p with
  | drums =>
      let draftNotes := drumsToNotes (drumsDraft p) in
      let draftSounds := fold_left setAdd (map Note.pitch draftNotes) [] in
      let conflicts := filter (fun s => includes s (usedDrumSounds p)) draftSounds in
      match conflicts with
      | [] => None
      | _ :: _ => Some conflicts
      end
  | _ => None
  end.

(** ** Handlers *)

Definition withDrafts (p : Peer) (grid : DrumGrid) (ks bs : list Note.t)
    (target : option string) : Peer :=
  {| identity := identity p;
     identityReady := identityReady p;
     channelRef := channelRef p;
     participants := participants p;
     sessionState := sessionState p;
     stateLoaded := stateLoaded p;
     draftInstrument := draftInstrument p;
     drumsDraft := grid;
     keysDraft := ks;
     bassDraft := bs;
     keysScaleNotes := keysScaleNotes p;
     bassScaleNotes := bassScaleNotes p;
     replaceTarget := target;
     published := published p;
     publishFailures := publishFailures p |}.

(** [clearDraft] *)
Definition clearDraft (p : Peer) : Peer :=
  match draftInstrument p with
  | drums => withDrafts p createEmptyDrums (keysDraft p) (bassDraft p) (replaceTarget p)
  | keys => withDrafts p (drumsDraft p) [] (bassDraft p) (replaceTarget p)
  | bass => withDrafts p (drumsDraft p) (keysDraft p) [] (replaceTarget p)
  end.

(** [setReplaceTarget] *)
Definition setReplaceTarget (target : option string) (p : Peer) : Peer :=
  withDrafts p (drumsDraft p) (keysDraft p) (bassDraft p) target.

Definition loopLimit (i : Instrument) : Z :=
  match i with
  | drums => DRUM_LOOP_LIMIT
  | _ => MELODIC_LOOP_LIMIT
  end.

(** The capacity and replacement step of [commitDraft]: the loops kept next
    to the new one.  [existing[0]] is read only when [existing] has at least
    [loopLimit] elements, so the branch for an empty [existing] is never
    taken. *)
Definition keepLoops (p : Peer) : list Loop.t :=
  let all := SessionState.loops (sessionState p) in
  let inst := draftInstrument p in
  let existing := filter (fun l => Instrument_eqb (Loop.instrument l) inst) all in
  if Z.of_nat (List.length existing) >=? loopLimit inst
  then
    let chosenId :=
      match replaceTarget p with
      | Some target => target
      | None => match existing with e :: _ => Loop.id e | [] => EmptyString end
      end in
    filter (fun l => negb (String.eqb (Loop.id l) chosenId)) all
  else filter (fun l => negb (Instrument_eqb (Loop.instrument l) inst)) all.

Section Handlers.

(** The two window lengths are computed in floating point and rounded:
    [compositionWindowMs] is
    [Math.round((60 / bpm) * STEP_COUNT * windowCycles * 1000)] and the
    window of [bpmInput] and [cycleInput] is
    [Math.round((60 / bpm) * STEP_COUNT * 1000 * cycles)].  Both are kept
    abstract, as functions of the tempo and the cycle count. *)
Variable roundedWindowMs : Z -> Z -> Z.
Variable retimedWindowMs : Z -> Z -> Z.

Definition compositionWindowMs (p : Peer) : Z :=
  roundedWindowMs (SessionState.bpm (sessionState p))
                  (SessionState.windowCycles (sessionState p)).

(** The turn that starts at [now] for [userId]. *)
Definition turnFor (p : Peer) (userId : string) (now : Z) : Turn.t :=
  Turn.mk userId now (now + compositionWindowMs p).

(** The genesis effect: the queue head publishes the first state. *)
Definition bootstrapEffect (now : Z) (ack : bool) (p : Peer) : Peer :=
  if negb (identityReady p) || negb (channelRef p) || stateLoaded p then p
  else
    match queue p with
    | [] => p
    | q0 :: _ =>
        match SessionState.creatorId (sessionState p) with
        | Some (String _ _) => p
        | _ =>
            if negb (String.eqb (Participant.id q0) (Identity.id (identity p))) then p
            else
              let initial :=
                SessionState.mk
                  (SessionState.bpm (sessionState p))
                  []
                  (Some (turnFor p (Identity.id (identity p)) now))
                  now
                  (Some (Identity.id (identity p)))
                  (SessionState.windowCycles (sessionState p))
                  (Some now) in
              let p1 := publishState ack initial p in
              withSession p1 (sessionState p1) true
        end
    end.

(** The leader's arbitration effect.  [clock1] and [clock2] are the
    successive readings of [Date.now()]: the expiry test uses the first,
    the new turn the next one (the branch that starts the first turn reads
    the clock once). *)
Definition leaderEffect (clock1 clock2 : Z) (ack : bool) (p : Peer) : Peer :=
  if negb (isLeader p) || negb (channelRef p) then p
  else
    let st := sessionState p in
    let queueIds := map Participant.id (queue p) in
    match SessionState.activeTurn st with
    | None =>
        match queueIds with
        | [] => p
        | q0 :: _ => publishState ack (withTurn st (Some (turnFor p q0 clock1)) clock1) p
        end
    | Some active =>
        let activeStillHere := includes (Turn.userId active) queueIds in
        let expired := Turn.endsAt active <=? clock1 in
        if (negb activeStillHere || expired) && negb (Nat.eqb (List.length queueIds) 0)
        then
          let currentIndex := indexOf (Turn.userId active) queueIds in
          let nextId := arrayAt queueIds (nextIndex currentIndex queueIds) in
          publishState ack (withTurn st (Some (turnFor p nextId clock2)) clock2) p
        else p
    end.

(** [rotateTurn], the "Pass" button. *)
Definition rotateTurn (now : Z) (ack : bool) (p : Peer) : Peer :=
  if negb (channelRef p) || Nat.eqb (List.length (queue p)) 0 then p
  else
    let st := sessionState p in
    let queueIds := map Participant.id (queue p) in
    let currentIdx :=
      match SessionState.activeTurn st with
      | Some {| Turn.userId := String c s |} => indexOf (String c s) queueIds
      | _ => -1
      end in
    let nextId := arrayAt queueIds (nextIndex currentIdx queueIds) in
    publishState ack (withTurn st (Some (turnFor p nextId now)) now) p.

(** [toggleSessionPlayback] *)
Definition toggleSessionPlayback (now : Z) (ack : bool) (p : Peer) : Peer :=
  if negb (channelRef p) then p
  else
    let st := sessionState p in
    let playback :=
      match SessionState.playbackStartedAt st with
      | Some _ => None
      | None => Some now
      end in
    publishState ack
      (SessionState.mk (SessionState.bpm st) (SessionState.loops st)
         (SessionState.activeTurn st) now (SessionState.creatorId st)
         (SessionState.windowCycles st) playback)
      p.

(** The [endsAt] adjustment shared by [bpmInput] and [cycleInput]. *)
Definition retime (windowMs clock : Z) (active : Turn.t) : Turn.t :=
  Turn.mk (Turn.userId active) (Turn.startedAt active)
    (Z.max (Turn.startedAt active + windowMs) (clock + 1500)).

(** [bpmInput]; the version is stamped with the first clock reading, the
    floor on [endsAt] uses the second. *)
Definition bpmInput (value : Q) (clock1 clock2 : Z) (ack : bool) (p : Peer) : Peer :=
  let st := sessionState p in
  let next := clampBpm value in
  let windowMs := retimedWindowMs next (SessionState.windowCycles st) in
  publishState ack
    (SessionState.mk next (SessionState.loops st)
       (option_map (retime windowMs clock2) (SessionState.activeTurn st))
       clock1 (SessionState.creatorId st) (SessionState.windowCycles st)
       (SessionState.playbackStartedAt st))
    p.

(** [cycleInput] *)
Definition cycleInput (value : Z) (clock1 clock2 : Z) (ack : bool) (p : Peer) : Peer :=
  let st := sessionState p in
  let cycles := if existsb (Z.eqb value) [2; 4; 8] then value else 4 in
  let windowMs := retimedWindowMs (SessionState.bpm st) cycles in
  publishState ack
    (SessionState.mk (SessionState.bpm st) (SessionState.loops st)
       (option_map (retime windowMs clock2) (SessionState.activeTurn st))
       clock1 (SessionState.creatorId st) cycles
       (SessionState.playbackStartedAt st))
    p.

(** [commitDraft], run from the closure of a render whose [sessionState]
    was [seen]; [freshId] is the result of [nanoid(8)].  [isMyTurn],
    [drumConflict] and [compositionWindowMs] are values of that render; the
    committed loops and the remaining fields of the published state are read
    from [sessionStateRef.current], which the subscription handler may have
    replaced since the render. *)
Definition commitDraftAt (seen : SessionState.t) (now : Z) (freshId : string)
    (ack : bool) (p : Peer) : Peer :=
  let view := renderView seen p in
  if negb (isMyTurn view) then p
  else
    let notes := getDraftNotes p in
    match notes with
    | [] => p
    | _ :: _ =>
        match draftInstrument p, drumConflict view with
        | drums, Some _ => p
        | _, _ =>
            let me := identity p in
            let newLoop :=
              Loop.mk freshId (Identity.id me) (Identity.name me) (Identity.color me)
                      (draftInstrument p) notes (Some []) now in
            let updatedLoops := keepLoops p ++ [newLoop] in
            let queueIds := map Participant.id (queue p) in
            let nextTurn :=
              match queueIds with
              | [] => None
              | _ :: _ =>
                  let currentIdx := indexOf (Identity.id me) queueIds in
                  let nextId := arrayAt queueIds (nextIndex currentIdx queueIds) in
                  Some (turnFor view nextId now)
              end in
            let st := sessionState p in
            let next :=
              SessionState.mk (SessionState.bpm st) updatedLoops nextTurn now
                (SessionState.creatorId st) (SessionState.windowCycles st)
                (SessionState.playbackStartedAt st) in
            clearDraft (setReplaceTarget None (publishState ack next p))
        end
    end.

(** [commitDraft] at a render that shows the state written last. *)
Definition commitDraft (now : Z) (freshId : string) (ack : bool) (p : Peer) : Peer :=
  commitDraftAt (sessionState p) now freshId ack p.

End Handlers.

(** ** The merge rule and the publishing handlers *)

(** The merge rule on states alone. *)
Definition merge (local incoming : SessionState.t) : SessionState.t :=
  if accepts local incoming then incoming else local.

(** The handlers that call [publishState], with the values they take from
    the outside world and, for the commit, the state its render saw. *)
Inductive Action :=
| Bootstrap (now : Z)
| Arbitrate (clock1 clock2 : Z)
| PassTurn (now : Z)
| TogglePlayback (now : Z)
| SetBpm (value : Q) (clock1 clock2 : Z)
| SetCycles (value clock1 clock2 : Z)
| Commit (seen : SessionState.t) (now : Z) (freshId : string).

(** The readings of [Date.now()] an action may stamp a version with. *)
Definition clockReadings (a : Action) : list Z :=
  match a with
  | Bootstrap now | PassTurn now | TogglePlayback now | Commit _ now _ => [now]
  | Arbitrate clock1 clock2 => [clock1; clock2]
  | SetBpm _ clock1 _ | SetCycles _ clock1 _ => [clock1]
  end.

Definition perform (w w' : Z -> Z -> Z) (a : Action) (ack : bool) (p : Peer) : Peer :=
  match a with
  | Bootstrap now => bootstrapEffect w now ack p
  | Arbitrate clock1 clock2 => leaderEffect w clock1 clock2 ack p
  | PassTurn now => rotateTurn w now ack p
  | TogglePlayback now => toggleSessionPlayback now ack p
  | SetBpm value clock1 clock2 => bpmInput w' value clock1 clock2 ack p
  | SetCycles value clock1 clock2 => cycleInput w' value clock1 clock2 ack p
  | Commit seen now freshId => commitDraftAt w seen now freshId ack p
  end.

(** What a handler built on [publishState] does: nothing at all, or it
    adopts a state stamped with one of its clock readings and hands that
    state to the channel when there is one, the same for either outcome of
    the publish. *)
Definition skipsOrPublishes (h : bool -> Peer -> Peer) (clocks : list Z) (p : Peer) : Prop :=
  (forall ack, h ack p = p)
  \/ exists next,
       In (SessionState.version next) clocks
       /\ forall ack,
            sessionState (h ack p) = next
            /\ published (h ack p)
               = if channelRef p then next :: published p else published p.

(** ** Invariants of the loop set *)

(** Number of committed loops of an instrument. *)
Definition countInstrument (inst : Instrument) (loops : list Loop.t) : Z :=
  Z.of_nat (List.length (filter (fun l => Instrument_eqb (Loop.instrument l) inst) loops)).

(** The capacity bound: at most [DRUM_LOOP_LIMIT] drum loops and
    [MELODIC_LOOP_LIMIT] loops each for keys and bass. *)
Definition withinCapacity (loops : list Loop.t) : Prop :=
  forall inst : Instrument, countInstrument inst loops <= loopLimit inst.

(** The loop has a note of pitch [v]. *)
Definition hasPitch (v : string) (l : Loop.t) : bool :=
  existsb (fun n => String.eqb (Note.pitch n) v) (Loop.notes l).

(** Number of committed drum loops that use the voice [v]. *)
Definition voiceOwners (v : string) (loops : list Loop.t) : nat :=
  List.length (filter (fun l => isDrumLoop l && hasPitch v l) loops).

(** No drum voice is in the notes of two different committed drum loops. *)
Definition drumExclusive (loops : list Loop.t) : Prop :=
  forall r : DrumRow, (voiceOwners (DrumRow_id r) loops <= 1)%nat.



(** ** Sample sessions *)

(** Two members who joined in the same millisecond, and a later one. *)
Definition aliceAt5 : Participant.t := Participant.mk "alice" "Echo-101" "#ffb300" 5.
Definition bobAt5 : Participant.t := Participant.mk "bob" "Pulse-202" "#ff5e6c" 5.
Definition carolAt7 : Participant.t := Participant.mk "carol" "Orbit-303" "#45d4e5" 7.

(** A window function for the sample states: the quotient
    [960000 * cycles / bpm] rounded to the nearest integer, a tie going up
    (32000 ms at 120 bpm and 4 cycles, 42667 ms at 90 bpm and 4 cycles). *)
Definition sampleWindowMs (bpm cycles : Z) : Z :=
  (2 * 960000 * cycles + bpm) / (2 * bpm).

(** A peer that has entered presence and holds the initial state. *)
Definition joinedPeer (me : Identity.t) (members : list Participant.t) : Peer :=
  {| identity := me;
     identityReady := true;
     channelRef := true;
     participants := queueFromPresence members;
     sessionState := initialSessionState;
     stateLoaded := false;
     draftInstrument := drums;
     drumsDraft := createEmptyDrums;
     keysDraft := [];
     bassDraft := [];
     keysScaleNotes := ["C4"; "D4"; "E4"; "F4"; "G4"; "A4"; "B4"; "C5"];
     bassScaleNotes := ["C2"; "D2"; "E2"; "F2"; "G2"; "A2"; "B2"; "C3"];
     replaceTarget := None;
     published := [];
     publishFailures := 0 |}.

Definition idAda : Identity.t := Identity.mk "ada" "Echo-101" "#ffb300" 10.
Definition idBen : Identity.t := Identity.mk "ben" "Pulse-202" "#ff5e6c" 20.
Definition idCyd : Identity.t := Identity.mk "cyd" "Orbit-303" "#45d4e5" 30.

Definition asParticipant (i : Identity.t) : Participant.t :=
  Participant.mk (Identity.id i) (Identity.name i) (Identity.color i) (Identity.joinedAt i).

(** A composer in a running session. *)
Definition composer (me : Identity.t) (members : list Participant.t)
    (st : SessionState.t) (inst : Instrument) (grid : DrumGrid)
    (ks bs : list Note.t) (target : option string) : Peer :=
  {| identity := me;
     identityReady := true;
     channelRef := true;
     participants := queueFromPresence members;
     sessionState := st;
     stateLoaded := true;
     draftInstrument := inst;
     drumsDraft := grid;
     keysDraft := ks;
     bassDraft := bs;
     keysScaleNotes := ["C4"; "D4"; "E4"; "F4"; "G4"; "A4"; "B4"; "C5"];
     bassScaleNotes := ["C2"; "D2"; "E2"; "F2"; "G2"; "A2"; "B2"; "C3"];
     replaceTarget := target;
     published := [];
     publishFailures := 0 |}.

(** Scenario E: Ada and Ben each see themselves alone at the head of the
    queue and bootstrap, at 1000 and at 1001; Cyd receives both. *)
Definition genesis1000 : SessionState.t :=
  sessionState (bootstrapEffect sampleWindowMs 1000 true (joinedPeer idAda [asParticipant idAda])).
Definition genesis1001 : SessionState.t :=
  sessionState (bootstrapEffect sampleWindowMs 1001 true (joinedPeer idBen [asParticipant idBen])).
Definition thirdPeer : Peer :=
  joinedPeer idCyd [asParticipant idAda; asParticipant idBen; asParticipant idCyd].

(** The peer of scenario E once the version-1001 state has reached it over
    the live subscription, while its history fetch is still pending. *)
Definition thirdPeerAt1001 : Peer := onStateMessage (Some genesis1001) thirdPeer.

(** Scenario B at its last step: Ada (joined at 0) leads the queue, Cyd
    (joined at 2) follows, and the turn still names Ben, who has left. *)
Definition pAda : Identity.t := Identity.mk "P0" "Echo-101" "#ffb300" 0.
Definition pBen : Identity.t := Identity.mk "P1" "Pulse-202" "#ff5e6c" 1.
Definition pCyd : Identity.t := Identity.mk "P2" "Orbit-303" "#45d4e5" 2.

Definition benHoldsTurn : SessionState.t :=
  SessionState.mk 120 [] (Some (Turn.mk "P1" 5000 37000)) 5000 (Some "P0") 4 (Some 1000).

Definition leaderAfterBenLeft : Peer :=
  withSession (joinedPeer pAda [asParticipant pAda; asParticipant pCyd]) benHoldsTurn true.

(** A peer whose local state carries a version stamped by a faster clock. *)
Definition aheadOfClock : Peer :=
  withSession (joinedPeer idAda [asParticipant idAda])
    (SessionState.mk 120 [] (Some (Turn.mk "ada" 2000 34000)) 2000 (Some "ada") 4 (Some 2000))
    true.

Definition adaAndBen : list Participant.t := [asParticipant idAda; asParticipant idBen].

Definition keysLoop (loopId : string) (created : Z) : Loop.t :=
  Loop.mk loopId "ben" "Pulse-202" "#ff5e6c" keys
    [Note.mk "a1b2c3" "C4" 0 1 (85 # 100)] (Some []) created.

Definition drumLoop (loopId : string) (r : DrumRow) (created : Z) : Loop.t :=
  Loop.mk loopId "ben" "Pulse-202" "#ff5e6c" drums
    (rowNotes r 0 [true; false; false; false]) (Some []) created.

(** A drum grid with a single kick on the first step. *)
Definition kickOnOne : DrumGrid :=
  {| kickRow := true :: repeat false 15;
     snareRow := repeat false 16;
     hatRow := repeat false 16;
     clapRow := repeat false 16 |}.

(** Ada's turn, two committed keys loops. *)
Definition twoKeysLoops : SessionState.t :=
  SessionState.mk 120 [keysLoop "k1" 3000; keysLoop "k2" 4000]
    (Some (Turn.mk "ada" 5000 37000)) 5000 (Some "ada") 4 (Some 1000).

(** Ada's turn, four committed drum loops, one voice each. *)
Definition fourDrumLoops : SessionState.t :=
  SessionState.mk 120
    [drumLoop "d1" kick 1000; drumLoop "d2" snare 2000;
     drumLoop "d3" hat 3000; drumLoop "d4" clap 4000]
    (Some (Turn.mk "ada" 5000 37000)) 5000 (Some "ada") 4 (Some 1000).


(** The same draft with no replacement choice. *)
Definition defaultTargetComposer : Peer :=
  composer idAda adaAndBen twoKeysLoops keys createEmptyDrums
    [Note.mk "x7y8z9" "E4" 2 1 (85 # 100)] [] None.

(** Ada drafts a kick while the drums are at capacity and the oldest drum
    loop, the default replacement, owns the kick. *)
Definition kickAgainComposer : Peer :=
  composer idAda adaAndBen fourDrumLoops drums kickOnOne [] [] None.

(** Ben looks at the same session: it is not his turn. *)
Definition outOfTurnComposer : Peer :=
  composer idBen adaAndBen twoKeysLoops keys createEmptyDrums
    [Note.mk "x7y8z9" "E4" 2 1 (85 # 100)] [] None.

(** Ada holds the turn with nothing drafted. *)
Definition emptyDraftComposer : Peer :=
  composer idAda adaAndBen twoKeysLoops keys createEmptyDrums [] [] None.

(** Ada's turn with a single committed drum loop, which owns the snare. *)
Definition oneSnareLoop : SessionState.t :=
  SessionState.mk 120 [keysLoop "k1" 3000; drumLoop "d2" snare 2000]
    (Some (Turn.mk "ada" 5000 37000)) 5000 (Some "ada") 4 (Some 1000).

Definition kickComposer : Peer :=
  composer idAda adaAndBen oneSnareLoop drums kickOnOne [] [] None.

(** Ben holds the turn in a session of Ada and Ben. *)
Definition benHoldsBen : SessionState.t :=
  SessionState.mk 120 [] (Some (Turn.mk "ben" 5000 37000)) 5000 (Some "ada") 4 (Some 1000).

(** Ben's turn has run out.  A change of the queue makes the leader's effect
    run at Ada, whose clock reads 37400 and then 37500: the turn passes to
    Ada. *)
Definition turnPassedToAda : SessionState.t :=
  sessionState
    (leaderEffect sampleWindowMs 37400 37500 true
       (composer idAda adaAndBen benHoldsBen drums createEmptyDrums [] [] None)).

(** Ben has drafted a kick during his turn.  The state that passes the turn
    to Ada reaches him and the subscription handler adopts it; the component
    has not rendered again, so its closures still hold [benHoldsBen]. *)
Definition benBeforeRender : Peer :=
  onStateMessage (Some turnPassedToAda)
    (composer idBen adaAndBen benHoldsBen drums kickOnOne [] [] None).

(** The state Ben's commit publishes from that render, at 37600. *)
Definition benCommitted : SessionState.t :=
  sessionState (commitDraftAt sampleWindowMs benHoldsBen 37600 "f1" true benBeforeRender).

(** Ada has rendered [turnPassedToAda], her turn with no loop committed, and
    has drafted a kick.  Ben's commit reaches her and is adopted; her
    component has not rendered again. *)
Definition adaBeforeRender : Peer :=
  onStateMessage (Some benCommitted)
    (composer idAda adaAndBen turnPassedToAda drums kickOnOne [] [] None).



(** ** Draft editing *)

(** The note [drumsToNotes] makes for an active cell. *)
Definition drumNote (r : DrumRow) (step : Z) : Note.t :=
  Note.mk (DrumRow_id r ++ "-" ++ NilZero.string_of_int (Z.to_int step))
          (DrumRow_id r) step 1 (9 # 10).

(** Number of active cells of a grid. *)
Definition activeCells (g : DrumGrid) : nat :=
  (count_occ bool_dec (kickRow g) true + count_occ bool_dec (snareRow g) true
   + count_occ bool_dec (hatRow g) true + count_occ bool_dec (clapRow g) true)%nat.

(** [cells.map((val, idx) => (idx === step ? value : val))], the cells being
    numbered from [idx] on. *)
Fixpoint setCell (cells : list bool) (idx step : Z) (value : bool) : list bool :=
  match cells with
  | [] => []
  | val :: rest => (if idx =? step then value else val) :: setCell rest (idx + 1) step value
  end.

(** [{ ...prev, [row]: cells }] *)
Definition setGridRow (g : DrumGrid) (r : DrumRow) (cells : list bool) : DrumGrid :=
  match r with
  | kick => {| kickRow := cells; snareRow := snareRow g; hatRow := hatRow g; clapRow := clapRow g |}
  | snare => {| kickRow := kickRow g; snareRow := cells; hatRow := hatRow g; clapRow := clapRow g |}
  | hat => {| kickRow := kickRow g; snareRow := snareRow g; hatRow := cells; clapRow := clapRow g |}
  | clap => {| kickRow := kickRow g; snareRow := snareRow g; hatRow := hatRow g; clapRow := cells |}
  end.

(** The [onSet] handler given to [DrumGrid]. *)
Definition onSetDrum (row : DrumRow) (step : Z) (value : bool) (p : Peer) : Peer :=
  if negb (isMyTurn p) then p
  else if includes (DrumRow_id row) (usedDrumSounds p) then p
  else
    withDrafts p
      (setGridRow (drumsDraft p) row (setCell (gridRow (drumsDraft p) row) 0 step value))
      (keysDraft p) (bassDraft p) (replaceTarget p).

(** [current.find((n) => n.pitch === pitch && n.step === step)] *)
Definition findCell (pitch : string) (step : Z) (current : list Note.t) : option Note.t :=
  find (fun n => String.eqb (Note.pitch n) pitch && (Note.step n =? step)) current.

(** The updater the piano roll's [onSet] passes to [setPianoDrafts], on the
    draft of the current melodic instrument; [freshId] is [nanoid(6)]. *)
Definition setPianoCell (pitch : string) (step : Z) (value : bool) (freshId : string)
    (current : list Note.t) : list Note.t :=
  match findCell pitch step current, value with
  | None, true => current ++ [Note.mk freshId pitch step 1 (85 # 100)]
  | Some existing, false =>
      filter (fun n => negb (String.eqb (Note.id n) (Note.id existing))) current
  | _, _ => current
  end.

(** The [onSet] handler given to [PianoRoll].  The piano roll is rendered
    only while the draft instrument is melodic, so the handler never runs
    on a drum draft; the embedding leaves the peer unchanged there. *)
Definition onSetPiano (pitch : string) (step : Z) (value : bool) (freshId : string)
    (p : Peer) : Peer :=
  if negb (isMyTurn p) then p
  else
    match draftInstrument p with
    | keys =>
        withDrafts p (drumsDraft p) (setPianoCell pitch step value freshId (keysDraft p))
          (bassDraft p) (replaceTarget p)
    | bass =>
        withDrafts p (drumsDraft p) (keysDraft p)
          (setPianoCell pitch step value freshId (bassDraft p)) (replaceTarget p)
    | drums => p
    end.

(** [pianoDrafts[draftInstrument]] and the scale it is clamped to. *)
Definition currentPianoDraft (p : Peer) : list Note.t :=
  match draftInstrument p with
  | keys => keysDraft p
  | bass => bassDraft p
  | drums => []
  end.

Definition currentScaleNotes (p : Peer) : list string :=
  match draftInstrument p with
  | keys => keysScaleNotes p
  | _ => bassScaleNotes p
  end.

(** The cell [(pitch, step)] of a piano roll is on:
    [notes.some((n) => n.pitch === pitch && n.step === step)]. *)
Definition cellOn (pitch : string) (step : Z) (notes : list Note.t) : bool :=
  existsb (fun n => String.eqb (Note.pitch n) pitch && (Note.step n =? step)) notes.

(** No two notes of a draft sit on the same cell. *)
Definition cellsUnique (notes : list Note.t) : Prop :=
  NoDup (map (fun n => (Note.pitch n, Note.step n)) notes).

(** Ada edits a keys draft that holds one note. *)
Definition keysEditor : Peer :=
  composer idAda adaAndBen oneSnareLoop keys createEmptyDrums
    [Note.mk "x7y8z9" "E4" 2 1 (85 # 100)] [] None.

(** Ada's keys draft after the scale moved: the F#4 is not in the scale any
    more, and the notes are not in step order. *)
Definition offScaleEditor : Peer :=
  composer idAda adaAndBen oneSnareLoop keys createEmptyDrums
    [Note.mk "n1" "F#4" 6 1 (85 # 100); Note.mk "n2" "E4" 2 1 (85 # 100)] [] None.

(** ** The state a commit publishes *)

(** The loop [commitDraft] builds from the draft. *)
Definition draftLoop (now : Z) (freshId : string) (p : Peer) : Loop.t :=
  Loop.mk freshId (Identity.id (identity p)) (Identity.name (identity p))
    (Identity.color (identity p)) (draftInstrument p) (getDraftNotes p) (Some []) now.

(** The member whose turn follows a commit of this peer, if the queue has
    any member. *)
Definition turnAfterCommit (p : Peer) : option string :=
  match map Participant.id (queue p) with
  | [] => None
  | q0 :: rest =>
      Some (arrayAt (q0 :: rest)
              (nextIndex (indexOf (Identity.id (identity p)) (q0 :: rest)) (q0 :: rest)))
  end.

(** ** Note names and scales *)

Definition ROOT_NOTES : list string :=
  ["C"; "C#"; "D"; "D#"; "E"; "F"; "F#"; "G"; "G#"; "A"; "A#"; "B"].

Record ScaleType := {
  scaleId : string;
  scaleLabel : string;
  intervals : list Z
}.

Definition SCALE_TYPES : list ScaleType :=
  [ {| scaleId := "major"; scaleLabel := "Major"; intervals := [0; 2; 4; 5; 7; 9; 11] |};
    {| scaleId := "minor"; scaleLabel := "Minor"; intervals := [0; 2; 3; 5; 7; 8; 10] |};
    {| scaleId := "dorian"; scaleLabel := "Dorian"; intervals := [0; 2; 3; 5; 7; 9; 10] |};
    {| scaleId := "pentatonic"; scaleLabel := "Penta"; intervals := [0; 2; 4; 7; 9] |};
    {| scaleId := "blues"; scaleLabel := "Blues"; intervals := [0; 3; 5; 6; 7; 10] |} ].

(** [`${ROOT_NOTES[i]}`]: a read outside the array prints as ["undefined"]. *)
Definition rootNoteAt (i : Z) : string :=
  if (0 <=? i) && (i <? 12) then nth (Z.to_nat i) ROOT_NOTES EmptyString else "undefined".

(** [midiToNoteName]: [Math.floor(midi / 12)] is the floor quotient, [%] the
    truncating remainder; the octave is printed in decimal. *)
Definition midiToNoteName (midi : Z) : string :=
  let octave := midi / 12 - 1 in
  let noteIndex := Z.rem midi 12 in
  String.append (rootNoteAt noteIndex) (NilZero.string_of_int (Z.to_int octave)).

(** The character class [[A-G]]. *)
Definition isNoteLetter (c : Ascii.ascii) : bool :=
  (65 <=? Ascii.nat_of_ascii c)%nat && (Ascii.nat_of_ascii c <=? 71)%nat.

(** [noteNameToMidi]: the match of [/^([A-G]#?)(\d+)$/], or 60 when the name
    does not match.  [\d+] and [parseInt(_, 10)] are the decimal reading of a
    non-empty string of digits (exact here; a JavaScript number is exact up
    to 2^53). *)
Definition noteNameToMidi (note : string) : Z :=
  match note with
  | EmptyString => 60
  | String c rest =>
      if isNoteLetter c
      then
        let '(noteName, octaveStr) :=
          match rest with
          | String h rest' =>
              if Ascii.eqb h "#"%char
              then (String c (String h EmptyString), rest')
              else (String c EmptyString, rest)
          | EmptyString => (String c EmptyString, rest)
          end in
        match octaveStr, NilEmpty.uint_of_string octaveStr with
        | String _ _, Some digits =>
            (Z.of_uint digits + 1) * 12 + indexOf noteName ROOT_NOTES
        | _, _ => 60
        end
      else 60
  end.

(** An entry of [allScaleNotes]. *)
Record ScaleNote := {
  midi : Z;
  name : string
}.

(** [SCALE_TYPES.find((s) => s.id === scaleType) ?? SCALE_TYPES[0]] *)
Definition findScale (scaleType : string) : ScaleType :=
  match find (fun s => String.eqb (scaleId s) scaleType) SCALE_TYPES with
  | Some s => s
  | None => {| scaleId := "major"; scaleLabel := "Major"; intervals := [0; 2; 4; 5; 7; 9; 11] |}
  end.

(** The two nested loops of [generateScaleFromMidi], before the sort. *)
Definition allScaleNotes (scale : ScaleType) (rootIndex : Z) : list ScaleNote :=
  flat_map
    (fun octave =>
       flat_map
         (fun interval =>
            let m := (octave + 1) * 12 + rootIndex + interval in
            if (12 <=? m) && (m <=? 108)
            then [ {| midi := m; name := midiToNoteName m |} ]
            else [])
         (intervals scale))
    [0; 1; 2; 3; 4; 5; 6; 7; 8].

(** [findIndex((n) => n.midi >= baseMidi)], the entries being numbered from
    [idx] on: the first index, or [-1]. *)
Fixpoint findIndexFrom (baseMidi : Z) (idx : Z) (l : list ScaleNote) : Z :=
  match l with
  | [] => -1
  | n :: rest => if midi n >=? baseMidi then idx else findIndexFrom baseMidi (idx + 1) rest
  end.

(** [l.slice(start, stop)] for [0 <= start]. *)
Definition slice {A : Type} (l : list A) (start stop : Z) : list A :=
  firstn (Z.to_nat (stop - start)) (skipn (Z.to_nat start) l).

(** [generateScaleFromMidi], for a non-negative [noteCount] (its callers
    pass 8). *)
Definition generateScaleFromMidi (baseMidi : Z) (scaleType rootNote : string)
    (noteCount : Z) : list string :=
  let scale := findScale scaleType in
  let rootIndex := indexOf rootNote ROOT_NOTES in
  if rootIndex =? -1 then []
  else
    let sorted := sortBy midi (allScaleNotes scale rootIndex) in
    let len := Z.of_nat (List.length sorted) in
    let found := findIndexFrom baseMidi 0 sorted in
    let startIdx := if found =? -1 then Z.max 0 (len - noteCount) else found in
    let startIdx := Z.min startIdx (len - noteCount) in
    let startIdx := Z.max 0 startIdx in
    map name (slice sorted startIdx (startIdx + noteCount)).

(** Duplicate-freeness of a list of strings, decided. *)
Fixpoint noDupb (l : list string) : bool :=
  match l with
  | [] => true
  | x :: rest => negb (includes x rest) && noDupb rest
  end.

(** * Properties *)

(** ** Instruments *)

Lemma Instrument_eqb_spec a b : reflect (a = b) (Instrument_eqb a b).
Proof. destruct a, b; simpl; constructor; congruence. Qed.

(** ** Generic facts on lists *)

Lemma NoDup_map_In_inj {A B : Type} (f : A -> B) (l : list A) (a b : A) :
  NoDup (map f l) -> In a l -> In b l -> f a = f b -> a = b.
Proof.
  induction l as [| x l IH]; simpl; intros Hnd Ha Hb Hab; [contradiction |].
  inversion Hnd as [| ? ? Hnotin Hnd']; subst.
  destruct Ha as [-> | Ha], Hb as [-> | Hb]; auto.
  - exfalso. apply Hnotin. rewrite Hab. now apply in_map.
  - exfalso. apply Hnotin. rewrite <- Hab. now apply in_map.
Qed.

Lemma includes_In (x : string) (l : list string) :
  includes x l = true <-> In x l.
Proof.
  unfold includes. rewrite existsb_exists. split.
  - intros [y [Hy Heq]]. apply String.eqb_eq in Heq. now subst.
  - intros H. exists x. split; [assumption | apply String.eqb_refl].
Qed.

Lemma includes_false (x : string) (l : list string) :
  includes x l = false <-> ~ In x l.
Proof.
  rewrite <- includes_In. destruct (includes x l); split; intros; congruence.
Qed.

(** ** The stable sort *)

Section StableSortFacts.
Context {A : Type} (key : A -> Z).

Let le_key (a b : A) : Prop := key a <= key b.

Lemma insertBy_perm (x : A) (l : list A) :
  Permutation (insertBy key x l) (x :: l).
Proof.
  induction l as [| y l IH]; simpl; [reflexivity |].
  destruct (key x <=? key y); [reflexivity |].
  rewrite IH. apply perm_swap.
Qed.

Lemma sortBy_perm (l : list A) : Permutation (sortBy key l) l.
Proof.
  induction l as [| x l IH]; simpl; [reflexivity |].
  rewrite insertBy_perm. now constructor.
Qed.

Lemma insertBy_sorted (x : A) (l : list A) :
  StronglySorted le_key l -> StronglySorted le_key (insertBy key x l).
Proof.
  induction 1 as [| y l Hs IH Hall]; simpl.
  - constructor; constructor.
  - destruct (key x <=? key y) eqn:E.
    + apply Z.leb_le in E. constructor.
      * now constructor.
      * constructor; [exact E |].
        eapply Forall_impl; [| exact Hall].
        intros z Hz. unfold le_key in *. lia.
    + apply Z.leb_gt in E. constructor; [exact IH |].
      eapply Permutation_Forall.
      * symmetry. apply insertBy_perm.
      * constructor; [unfold le_key; lia | exact Hall].
Qed.

Lemma sortBy_sorted (l : list A) : StronglySorted le_key (sortBy key l).
Proof.
  induction l as [| x l IH]; simpl; [constructor |].
  now apply insertBy_sorted.
Qed.

(** Two sorted arrangements of the same elements coincide when no two
    elements share a key. *)
Lemma sorted_perm_unique (l1 l2 : list A) :
  StronglySorted le_key l1 -> StronglySorted le_key l2 ->
  Permutation l1 l2 -> NoDup (map key l1) -> l1 = l2.
Proof.
  intros H1. revert l2.
  induction H1 as [| a l1 Hs1 IH Hall1]; intros l2 H2 Hperm Hnd.
  - apply Permutation_nil in Hperm. now subst.
  - destruct H2 as [| b l2 Hs2 Hall2].
    + apply Permutation_sym, Permutation_nil in Hperm. discriminate.
    + assert (Hab : a = b).
      { apply (NoDup_map_In_inj key (a :: l1)); auto.
        - now left.
        - apply (Permutation_in b (Permutation_sym Hperm)). now left.
        - assert (Ha : In a (b :: l2)) by (apply (Permutation_in a Hperm); now left).
          assert (Hb : In b (a :: l1))
            by (apply (Permutation_in b (Permutation_sym Hperm)); now left).
          rewrite Forall_forall in Hall1, Hall2.
          assert (key a <= key b).
          { destruct Hb as [<- | Hb]; [lia | now apply Hall1]. }
          assert (key b <= key a).
          { destruct Ha as [<- | Ha]; [lia | now apply Hall2]. }
          lia. }
      subst b. f_equal.
      apply IH; auto.
      * now apply Permutation_cons_inv in Hperm.
      * now inversion Hnd.
Qed.

Lemma sortBy_permutation_invariant (l l' : list A) :
  Permutation l l' -> NoDup (map key l) -> sortBy key l = sortBy key l'.
Proof.
  intros Hperm Hnd.
  apply sorted_perm_unique; try apply sortBy_sorted.
  - rewrite sortBy_perm, Hperm. symmetry. apply sortBy_perm.
  - apply (Permutation_NoDup (l := map key l)); [| exact Hnd].
    apply Permutation_map. symmetry. apply sortBy_perm.
Qed.

(** Stability: the elements that share a key keep the order of the input. *)
Lemma insertBy_filter_key (t : Z) (x : A) (l : list A) :
  filter (fun a => key a =? t) (insertBy key x l)
  = filter (fun a => key a =? t) (x :: l).
Proof.
  induction l as [| y l IH]; [reflexivity |].
  simpl insertBy. destruct (key x <=? key y) eqn:E; [reflexivity |].
  apply Z.leb_gt in E.
  change (filter (fun a => key a =? t) (y :: insertBy key x l))
    with (if key y =? t then y :: filter (fun a => key a =? t) (insertBy key x l)
          else filter (fun a => key a =? t) (insertBy key x l)).
  rewrite IH. simpl.
  destruct (key x =? t) eqn:Ex, (key y =? t) eqn:Ey; try reflexivity.
  apply Z.eqb_eq in Ex, Ey. lia.
Qed.

Lemma sortBy_stable (t : Z) (l : list A) :
  filter (fun a => key a =? t) (sortBy key l) = filter (fun a => key a =? t) l.
Proof.
  induction l as [| x l IH]; [reflexivity |].
  simpl sortBy. rewrite insertBy_filter_key. simpl. now rewrite IH.
Qed.

Lemma sortBy_length (l : list A) : List.length (sortBy key l) = List.length l.
Proof. apply Permutation_length, sortBy_perm. Qed.

Lemma sortBy_nil_inv (l : list A) : sortBy key l = [] -> l = [].
Proof.
  intros H. apply (f_equal (@List.length A)) in H.
  rewrite sortBy_length in H. now destruct l.
Qed.
End StableSortFacts.

(** ** Presence queue *)

(** C4, as stated, fails: two peers that enumerate the same two members,
    joined at the same millisecond, in opposite orders compute different
    queues. *)
Lemma queueFromPresence_tie_follows_enumeration :
  Permutation [aliceAt5; bobAt5] [bobAt5; aliceAt5]
  /\ queueFromPresence [aliceAt5; bobAt5] = [aliceAt5; bobAt5]
  /\ queueFromPresence [bobAt5; aliceAt5] = [bobAt5; aliceAt5]
  /\ queueFromPresence [aliceAt5; bobAt5] <> queueFromPresence [bobAt5; aliceAt5].
Proof.
  split; [apply perm_swap |].
  split; [reflexivity |]. split; [reflexivity |].
  vm_compute. discriminate.
Qed.

(** C4, amended: members that share a [joinedAt] stay in the order in which
    they were enumerated, whatever the member list: the sort has [joinedAt]
    as its only key and is stable.  Hence [queueFromPresence] gives the same
    queue for any two enumerations of a member list whose [joinedAt] values
    are pairwise distinct, and for those only. *)
Theorem queueFromPresence_deterministic_on_distinct_joinedAt :
  forall members : list Participant.t,
    (forall t : Z,
       filter (fun m => Participant.joinedAt m =? t) (queueFromPresence members)
       = filter (fun m => Participant.joinedAt m =? t) members)
    /\ (forall members' : list Participant.t,
          Permutation members members' ->
          NoDup (map Participant.joinedAt members) ->
          queueFromPresence members = queueFromPresence members').
Proof.
  intros members. split.
  - intros t. apply sortBy_stable.
  - intros members' Hperm Hnd. now apply sortBy_permutation_invariant.
Qed.

Lemma queueFromPresence_deterministic_witness :
  queueFromPresence [carolAt7; aliceAt5] = queueFromPresence [aliceAt5; carolAt7]
  /\ filter (fun m => Participant.joinedAt m =? 5)
            (queueFromPresence [carolAt7; bobAt5; aliceAt5])
     = [bobAt5; aliceAt5]
  /\ filter (fun m => Participant.joinedAt m =? 5)
            (queueFromPresence [aliceAt5; carolAt7; bobAt5])
     = [aliceAt5; bobAt5].
Proof.
  split; [| split].
  - apply (proj2 (queueFromPresence_deterministic_on_distinct_joinedAt [carolAt7; aliceAt5])
             [aliceAt5; carolAt7]).
    + apply perm_swap.
    + simpl. repeat constructor; simpl; intuition discriminate.
  - exact (proj1 (queueFromPresence_deterministic_on_distinct_joinedAt
                    [carolAt7; bobAt5; aliceAt5]) 5).
  - exact (proj1 (queueFromPresence_deterministic_on_distinct_joinedAt
                    [aliceAt5; carolAt7; bobAt5]) 5).
Defined.

(** ** State reconciler *)

Lemma onStateMessage_sessionState (incoming : SessionState.t) (p : Peer) :
  sessionState (onStateMessage (Some incoming) p) = merge (sessionState p) incoming.
Proof.
  unfold onStateMessage, merge. now destruct (accepts (sessionState p) incoming).
Qed.

Lemma deliverAll_sessionState (l : list SessionState.t) (p : Peer) :
  sessionState (deliverAll l p) = fold_left merge l (sessionState p).
Proof.
  unfold deliverAll. revert p.
  induction l as [| m l IH]; intros p; cbn [fold_left]; [reflexivity |].
  now rewrite IH, onStateMessage_sessionState.
Qed.

(** On versions that are wall-clock stamps (non-negative), the guard of the
    subscription is the comparison of versions. *)
Lemma accepts_iff_version_ge (local incoming : SessionState.t) :
  0 <= SessionState.version local ->
  0 <= SessionState.version incoming ->
  accepts local incoming = true
  <-> SessionState.version incoming >= SessionState.version local.
Proof.
  intros Hl Hi. unfold accepts.
  rewrite orb_true_iff, Z.eqb_eq, Z.geb_le. lia.
Qed.

(** Live delivery: accepted states replace the local one whole, rejected
    ones leave the peer as it was. *)
Lemma onStateMessage_merge_rule (incoming : SessionState.t) (p : Peer) :
  0 <= SessionState.version (sessionState p) ->
  0 <= SessionState.version incoming ->
  (SessionState.version incoming >= SessionState.version (sessionState p) ->
   sessionState (onStateMessage (Some incoming) p) = incoming)
  /\ (SessionState.version incoming < SessionState.version (sessionState p) ->
      onStateMessage (Some incoming) p = p).
Proof.
  intros Hl Hi. unfold onStateMessage.
  destruct (accepts (sessionState p) incoming) eqn:E.
  - apply accepts_iff_version_ge in E; auto. split; [reflexivity | lia].
  - split; [| reflexivity].
    intros Hge. apply accepts_iff_version_ge in Hge; auto. congruence.
Qed.






(** Scenario E evaluated: in both arrival orders the third peer ends with
    the version-1001 payload. *)
Example scenario_E_either_order :
  SessionState.version genesis1000 = 1000
  /\ SessionState.version genesis1001 = 1001
  /\ sessionState (deliverAll [genesis1000; genesis1001] thirdPeer) = genesis1001
  /\ sessionState (deliverAll [genesis1001; genesis1000] thirdPeer) = genesis1001.
Proof. repeat split; reflexivity. Qed.

(** X4: delivering an update a second time changes nothing: the peer after
    two deliveries of the same state is the peer after one. *)
Lemma onStateMessage_idempotent (incoming : SessionState.t) (p : Peer) :
  onStateMessage (Some incoming) (onStateMessage (Some incoming) p)
  = onStateMessage (Some incoming) p.
Proof.
  assert (Hself : accepts incoming incoming = true).
  { unfold accepts. rewrite orb_true_iff. right. apply Z.geb_le. lia. }
  unfold onStateMessage.
  destruct (accepts (sessionState p) incoming) eqn:E.
  - simpl. now rewrite Hself.
  - now rewrite E.
Qed.

(** C2 at the failing input: the history fetch returns the version-1000
    state to a peer that already holds version 1001.  The subscription
    handler leaves the peer unchanged on that payload; the history path
    adopts it. *)
Theorem history_fetch_adopts_older_version :
  SessionState.version (sessionState thirdPeerAt1001) = 1001
  /\ SessionState.version genesis1000 = 1000
  /\ onStateMessage (Some genesis1000) thirdPeerAt1001 = thirdPeerAt1001
  /\ sessionState
       (onHistory (Some [ {| msgName := "state"; msgData := Some genesis1000 |} ])
                  thirdPeerAt1001)
     = genesis1000.
Proof. repeat split; reflexivity. Qed.

(** The history path never compares versions. *)
Lemma onHistory_adopts_unconditionally (incoming : SessionState.t) (p : Peer) :
  sessionState
    (onHistory (Some [ {| msgName := "state"; msgData := Some incoming |} ]) p)
  = incoming.
Proof. reflexivity. Qed.

(** ** Publishing and turn arbitration *)

Lemma publishState_sessionState (ack : bool) (next : SessionState.t) (p : Peer) :
  sessionState (publishState ack next p) = next.
Proof. unfold publishState. simpl. now destruct (channelRef p). Qed.

Lemma publishState_published (ack : bool) (next : SessionState.t) (p : Peer) :
  published (publishState ack next p)
  = if channelRef p then next :: published p else published p.
Proof. unfold publishState. simpl. now destruct (channelRef p). Qed.

Lemma publishState_stateLoaded (ack : bool) (next : SessionState.t) (p : Peer) :
  stateLoaded (publishState ack next p) = stateLoaded p.
Proof. unfold publishState. simpl. now destruct (channelRef p). Qed.

Lemma cons_neq_self {A : Type} (x : A) (l : list A) : l <> x :: l.
Proof.
  intros H. apply (f_equal (@List.length A)) in H. simpl in H. lia.
Qed.

Lemma indexOf_lower_bound (x : string) (l : list string) : -1 <= indexOf x l.
Proof.
  induction l as [| y l IH]; simpl; [lia |].
  destruct (String.eqb y x); [lia |].
  destruct (indexOf x l <? 0) eqn:E; [lia |]. apply Z.ltb_ge in E. lia.
Qed.

Lemma indexOf_absent (x : string) (l : list string) :
  includes x l = false -> indexOf x l = -1.
Proof.
  unfold includes. induction l as [| y l IH]; simpl; [reflexivity |].
  rewrite orb_false_iff. intros [Hxy Hrest].
  rewrite String.eqb_sym, Hxy, (IH Hrest). reflexivity.
Qed.

Lemma indexOf_upper_bound (x : string) (l : list string) :
  indexOf x l < Z.of_nat (List.length l).
Proof.
  induction l as [| y l IH]; simpl List.length; simpl indexOf; [lia |].
  destruct (String.eqb y x); [lia |].
  destruct (indexOf x l <? 0) eqn:E; lia.
Qed.

(** The index read by the rotation is always inside the queue. *)
Lemma nextIndex_in_range (currentIdx : Z) (queueIds : list string) :
  queueIds <> [] -> -1 <= currentIdx ->
  0 <= nextIndex currentIdx queueIds < Z.of_nat (List.length queueIds).
Proof.
  intros Hne Hidx. unfold nextIndex.
  assert (0 < Z.of_nat (List.length queueIds)) by (destruct queueIds; simpl in *; [congruence | lia]).
  rewrite Z.rem_mod_nonneg by lia.
  apply Z.mod_pos_bound. lia.
Qed.

Lemma nextIndex_after_absent (queueIds : list string) :
  nextIndex (-1) queueIds = 0.
Proof. unfold nextIndex. simpl. now destruct (Z.of_nat (List.length queueIds)). Qed.

(** C3, as stated, fails: Ben held index 1 of [P0; P1; P2]; index 1 of the
    queue after his departure is P2, but the arbitration cycle gives the
    turn to P0. *)
Lemma leaderEffect_scenario_B_turn_goes_to_head :
  map Participant.id
      (queueFromPresence [asParticipant pAda; asParticipant pBen; asParticipant pCyd])
  = ["P0"; "P1"; "P2"]
  /\ map Participant.id (queue leaderAfterBenLeft) = ["P0"; "P2"]
  /\ arrayAt (map Participant.id (queue leaderAfterBenLeft))
             (Z.rem (indexOf "P1" ["P0"; "P1"; "P2"]) 2) = "P2"
  /\ option_map Turn.userId
       (SessionState.activeTurn
          (sessionState (leaderEffect sampleWindowMs 6000 6000 true leaderAfterBenLeft)))
     = Some "P0"
  /\ option_map Turn.userId
       (SessionState.activeTurn
          (sessionState (leaderEffect sampleWindowMs 6000 6000 true leaderAfterBenLeft)))
     <> Some "P2".
Proof.
  repeat split; try reflexivity. vm_compute. discriminate.
Qed.

(** C3, amended: when the active turn's [userId] is no longer in the queue
    and the queue is non-empty, the leader's arbitration cycle assigns the
    next turn to the head of the queue (index 0), whatever position the
    departed holder had; the "Pass" handler does the same. *)
Theorem leaderEffect_departed_holder_turn_goes_to_head :
  forall (w : Z -> Z -> Z) (clock1 clock2 : Z) (ack : bool) (p : Peer)
         (active : Turn.t) (q0 : Participant.t) (rest : list Participant.t),
    isLeader p = true ->
    channelRef p = true ->
    SessionState.activeTurn (sessionState p) = Some active ->
    queue p = q0 :: rest ->
    includes (Turn.userId active) (map Participant.id (queue p)) = false ->
    let headTurn now := Turn.mk (Participant.id q0) now (now + compositionWindowMs w p) in
    let next now := withTurn (sessionState p) (Some (headTurn now)) now in
    sessionState (leaderEffect w clock1 clock2 ack p) = next clock2
    /\ published (leaderEffect w clock1 clock2 ack p) = next clock2 :: published p
    /\ sessionState (rotateTurn w clock2 ack p) = next clock2.
Proof.
  intros w clock1 clock2 ack p active q0 rest Hlead Hchan Hactive Hqueue Hgone headTurn next.
  assert (Hidx : indexOf (Turn.userId active) (map Participant.id (queue p)) = -1)
    by now apply indexOf_absent.
  repeat split.
  - unfold leaderEffect. rewrite Hlead, Hchan, Hactive. cbn [negb orb].
    rewrite Hgone, Hidx, nextIndex_after_absent, Hqueue. cbn.
    rewrite publishState_sessionState. reflexivity.
  - unfold leaderEffect. rewrite Hlead, Hchan, Hactive. cbn [negb orb].
    rewrite Hgone, Hidx, nextIndex_after_absent, Hqueue. cbn.
    rewrite publishState_published, Hchan. reflexivity.
  - unfold rotateTurn. rewrite Hchan, Hactive.
    assert (Hcur :
      match active with
      | {| Turn.userId := String c s |} =>
          indexOf (String c s) (map Participant.id (queue p))
      | _ => -1
      end = -1).
    { destruct active as [[| c s] ? ?]; [reflexivity | exact Hidx]. }
    rewrite Hcur, nextIndex_after_absent, Hqueue. cbn.
    rewrite publishState_sessionState. reflexivity.
Qed.

Lemma leaderEffect_departed_holder_witness :
  let p := leaderAfterBenLeft in
  let next := withTurn (sessionState p) (Some (Turn.mk "P0" 6000 (6000 + 32000))) 6000 in
  sessionState (leaderEffect sampleWindowMs 5500 6000 true p) = next
  /\ published (leaderEffect sampleWindowMs 5500 6000 true p) = next :: published p
  /\ sessionState (rotateTurn sampleWindowMs 6000 true p) = next.
Proof.
  apply (leaderEffect_departed_holder_turn_goes_to_head sampleWindowMs 5500 6000 true
           leaderAfterBenLeft (Turn.mk "P1" 5000 37000)
           (asParticipant pAda) [asParticipant pCyd]);
    reflexivity.
Defined.

(** ** Genesis *)

(** C9: when the bootstrap effect fires (identity ready, channel set, no
    state loaded, no creator recorded, and the peer is the head of a
    non-empty queue) it publishes and adopts a genesis state with no loops,
    the bootstrapper as creator and as turn holder, a turn that starts at
    the creation timestamp and ends one composition window later, playback
    started at the creation timestamp, and that timestamp as version. *)
Theorem bootstrapEffect_genesis_shape :
  forall (w : Z -> Z -> Z) (now : Z) (ack : bool) (p : Peer)
         (q0 : Participant.t) (rest : list Participant.t),
    identityReady p = true ->
    channelRef p = true ->
    stateLoaded p = false ->
    queue p = q0 :: rest ->
    (SessionState.creatorId (sessionState p) = None
     \/ SessionState.creatorId (sessionState p) = Some EmptyString) ->
    Participant.id q0 = Identity.id (identity p) ->
    let me := Identity.id (identity p) in
    let genesis := sessionState (bootstrapEffect w now ack p) in
    published (bootstrapEffect w now ack p) = genesis :: published p
    /\ SessionState.loops genesis = []
    /\ SessionState.creatorId genesis = Some me
    /\ SessionState.activeTurn genesis
       = Some (Turn.mk me now (now + compositionWindowMs w p))
    /\ SessionState.playbackStartedAt genesis = Some now
    /\ SessionState.version genesis = now
    /\ SessionState.bpm genesis = SessionState.bpm (sessionState p)
    /\ SessionState.windowCycles genesis = SessionState.windowCycles (sessionState p)
    /\ stateLoaded (bootstrapEffect w now ack p) = true.
Proof.
  intros w now ack p q0 rest Hready Hchan Hloaded Hqueue Hcreator Hhead me genesis.
  assert (Hrun : bootstrapEffect w now ack p =
    let initial :=
      SessionState.mk (SessionState.bpm (sessionState p)) []
        (Some (turnFor w p me now)) now (Some me)
        (SessionState.windowCycles (sessionState p)) (Some now) in
    let p1 := publishState ack initial p in
    withSession p1 (sessionState p1) true).
  { unfold bootstrapEffect. rewrite Hready, Hchan, Hloaded, Hqueue, Hhead.
    rewrite String.eqb_refl. cbn [negb orb].
    destruct Hcreator as [-> | ->]; reflexivity. }
  subst genesis. rewrite Hrun. cbv zeta. cbn [sessionState published stateLoaded withSession].
  rewrite publishState_sessionState, publishState_published, Hchan.
  repeat split; reflexivity.
Qed.

Lemma bootstrapEffect_genesis_witness :
  let p := joinedPeer idAda [asParticipant idAda] in
  let genesis := sessionState (bootstrapEffect sampleWindowMs 1000 true p) in
  published (bootstrapEffect sampleWindowMs 1000 true p) = genesis :: published p
  /\ SessionState.loops genesis = []
  /\ SessionState.creatorId genesis = Some "ada"
  /\ SessionState.activeTurn genesis
     = Some (Turn.mk "ada" 1000 (1000 + compositionWindowMs sampleWindowMs p))
  /\ SessionState.playbackStartedAt genesis = Some 1000
  /\ SessionState.version genesis = 1000
  /\ SessionState.bpm genesis = SessionState.bpm (sessionState p)
  /\ SessionState.windowCycles genesis = SessionState.windowCycles (sessionState p)
  /\ stateLoaded (bootstrapEffect sampleWindowMs 1000 true p) = true.
Proof.
  apply (bootstrapEffect_genesis_shape sampleWindowMs 1000 true
           (joinedPeer idAda [asParticipant idAda]) (asParticipant idAda) []);
    try reflexivity.
  left. reflexivity.
Defined.

(** X7: the bootstrap effect publishes in no other situation: a genesis is
    published only by a ready peer with a channel, no state loaded, no
    creator recorded, and the head of the queue as identity. *)
Lemma bootstrapEffect_publishes_only_as_head
    (w : Z -> Z -> Z) (now : Z) (ack : bool) (p : Peer) (genesis : SessionState.t) :
  published (bootstrapEffect w now ack p) = genesis :: published p ->
  identityReady p = true /\ channelRef p = true /\ stateLoaded p = false
  /\ isLeader p = true
  /\ (SessionState.creatorId (sessionState p) = None
      \/ SessionState.creatorId (sessionState p) = Some EmptyString).
Proof.
  unfold bootstrapEffect, isLeader. intros H.
  destruct (identityReady p), (channelRef p) eqn:Hchan, (stateLoaded p);
    cbn [negb orb] in H; try (now apply cons_neq_self in H).
  destruct (queue p) as [| q0 rest]; [now apply cons_neq_self in H |].
  destruct (SessionState.creatorId (sessionState p)) as [[| c s] |];
    try (now apply cons_neq_self in H);
    destruct (String.eqb (Participant.id q0) (Identity.id (identity p)));
    cbn [negb] in H; try (now apply cons_neq_self in H);
    repeat split; auto.
Qed.

(** ** Every publishing handler *)

Lemma clearDraft_sessionState (p : Peer) : sessionState (clearDraft p) = sessionState p.
Proof. unfold clearDraft. now destruct (draftInstrument p). Qed.

Lemma clearDraft_published (p : Peer) : published (clearDraft p) = published p.
Proof. unfold clearDraft. now destruct (draftInstrument p). Qed.

(** Closes a goal [skipsOrPublishes] whose handler has been reduced to a
    call of [publishState]. *)
Ltac publishes :=
  right; eexists; split;
  [| intros ack;
     rewrite ?clearDraft_sessionState, ?clearDraft_published;
     cbv zeta; unfold setReplaceTarget;
     cbn [sessionState published withSession withDrafts];
     rewrite publishState_sessionState, publishState_published;
     split; reflexivity ];
  simpl; auto.

Lemma bootstrapEffect_skipsOrPublishes (w : Z -> Z -> Z) (now : Z) (p : Peer) :
  skipsOrPublishes (bootstrapEffect w now) [now] p.
Proof.
  unfold skipsOrPublishes, bootstrapEffect.
  destruct (negb (identityReady p) || negb (channelRef p) || stateLoaded p);
    [now left |].
  destruct (queue p) as [| q0 rest]; [now left |].
  destruct (negb (String.eqb (Participant.id q0) (Identity.id (identity p)))).
  - left. intros ack. now destruct (SessionState.creatorId (sessionState p)) as [[| c s] |].
  - destruct (SessionState.creatorId (sessionState p)) as [[| c s] |];
      try (now left); publishes.
Qed.

Lemma leaderEffect_skipsOrPublishes (w : Z -> Z -> Z) (clock1 clock2 : Z) (p : Peer) :
  skipsOrPublishes (leaderEffect w clock1 clock2) [clock1; clock2] p.
Proof.
  unfold skipsOrPublishes, leaderEffect.
  destruct (negb (isLeader p) || negb (channelRef p)); [now left |].
  destruct (SessionState.activeTurn (sessionState p)) as [active |].
  - match goal with |- context [if ?c then _ else _] => destruct c end; [| now left].
    publishes.
  - destruct (map Participant.id (queue p)); [now left |].
    publishes.
Qed.

Lemma rotateTurn_skipsOrPublishes (w : Z -> Z -> Z) (now : Z) (p : Peer) :
  skipsOrPublishes (rotateTurn w now) [now] p.
Proof.
  unfold skipsOrPublishes, rotateTurn.
  destruct (negb (channelRef p) || Nat.eqb (List.length (queue p)) 0); [now left |].
  publishes.
Qed.

Lemma toggleSessionPlayback_skipsOrPublishes (now : Z) (p : Peer) :
  skipsOrPublishes (toggleSessionPlayback now) [now] p.
Proof.
  unfold skipsOrPublishes, toggleSessionPlayback.
  destruct (negb (channelRef p)); [now left |].
  publishes.
Qed.

Lemma bpmInput_skipsOrPublishes (w' : Z -> Z -> Z) (value : Q) (clock1 clock2 : Z) (p : Peer) :
  skipsOrPublishes (bpmInput w' value clock1 clock2) [clock1] p.
Proof. unfold skipsOrPublishes, bpmInput. publishes. Qed.

Lemma cycleInput_skipsOrPublishes (w' : Z -> Z -> Z) (value clock1 clock2 : Z) (p : Peer) :
  skipsOrPublishes (cycleInput w' value clock1 clock2) [clock1] p.
Proof. unfold skipsOrPublishes, cycleInput. publishes. Qed.

Lemma commitDraftAt_skipsOrPublishes (w : Z -> Z -> Z) (seen : SessionState.t) (now : Z)
    (freshId : string) (p : Peer) :
  skipsOrPublishes (commitDraftAt w seen now freshId) [now] p.
Proof.
  unfold skipsOrPublishes, commitDraftAt. cbv zeta.
  destruct (negb (isMyTurn (renderView seen p))); [now left |].
  destruct (getDraftNotes p) as [| n notes]; [now left |].
  destruct (draftInstrument p) eqn:Hinst, (drumConflict (renderView seen p)) eqn:Hconf;
    try (now left); publishes.
Qed.

Lemma commitDraft_skipsOrPublishes (w : Z -> Z -> Z) (now : Z) (freshId : string) (p : Peer) :
  skipsOrPublishes (commitDraft w now freshId) [now] p.
Proof. exact (commitDraftAt_skipsOrPublishes w (sessionState p) now freshId p). Qed.

Lemma perform_skipsOrPublishes (w w' : Z -> Z -> Z) (a : Action) (p : Peer) :
  skipsOrPublishes (perform w w' a) (clockReadings a) p.
Proof.
  destruct a; simpl.
  - apply bootstrapEffect_skipsOrPublishes.
  - apply leaderEffect_skipsOrPublishes.
  - apply rotateTurn_skipsOrPublishes.
  - apply toggleSessionPlayback_skipsOrPublishes.
  - apply bpmInput_skipsOrPublishes.
  - apply cycleInput_skipsOrPublishes.
  - apply commitDraftAt_skipsOrPublishes.
Qed.

(** C5, as stated, fails: the local state has version 2000 and the
    publisher's clock reads 1500; the playback toggle publishes, and adopts,
    a state of version 1500. *)
Lemma toggleSessionPlayback_version_not_larger :
  let p' := toggleSessionPlayback 1500 true aheadOfClock in
  published p' = [sessionState p']
  /\ SessionState.version (sessionState aheadOfClock) = 2000
  /\ SessionState.version (sessionState p') = 1500
  /\ ~ SessionState.version (sessionState aheadOfClock)
       < SessionState.version (sessionState p').
Proof.
  repeat split; try reflexivity. vm_compute. discriminate.
Qed.

(** C5, amended: every publish operation stamps [next.version] with a
    reading of the publisher's wall clock, so the published version exceeds
    the local one exactly when that reading does; the next state is adopted
    locally and handed to the relay whatever the outcome of the publish, and
    a failed publish rolls nothing back. *)
Theorem publish_stamps_clock_and_adopts_locally :
  forall (w w' : Z -> Z -> Z) (a : Action) (ack : bool) (p : Peer) (next : SessionState.t),
    published (perform w w' a ack p) = next :: published p ->
    In (SessionState.version next) (clockReadings a)
    /\ (forall ack', sessionState (perform w w' a ack' p) = next)
    /\ (forall ack', published (perform w w' a ack' p) = next :: published p)
    /\ ((forall c, In c (clockReadings a) ->
                   SessionState.version (sessionState p) < c) ->
        SessionState.version (sessionState p) < SessionState.version next).
Proof.
  intros w w' a ack p next Hpub.
  destruct (perform_skipsOrPublishes w w' a p) as [Hskip | [next' [Hin Hrun]]].
  - rewrite Hskip in Hpub. now apply cons_neq_self in Hpub.
  - destruct (Hrun ack) as [_ Hp]. rewrite Hp in Hpub.
    destruct (channelRef p) eqn:Hchan; [| now apply cons_neq_self in Hpub].
    injection Hpub as ->.
    repeat split.
    + exact Hin.
    + intros ack'. apply Hrun.
    + intros ack'. apply Hrun.
    + intros Hclock. now apply Hclock.
Qed.

Lemma publish_stamps_clock_witness :
  let p := joinedPeer idAda [asParticipant idAda] in
  let next := sessionState (toggleSessionPlayback 1500 false p) in
  In (SessionState.version next) [1500]
  /\ (forall ack', sessionState (toggleSessionPlayback 1500 ack' p) = next)
  /\ (forall ack', published (toggleSessionPlayback 1500 ack' p) = next :: published p)
  /\ ((forall c, In c [1500] -> SessionState.version (sessionState p) < c) ->
      SessionState.version (sessionState p) < SessionState.version next).
Proof.
  apply (publish_stamps_clock_and_adopts_locally sampleWindowMs sampleWindowMs
           (TogglePlayback 1500) false (joinedPeer idAda [asParticipant idAda])).
  reflexivity.
Defined.

(** ** Loop commit engine *)

Lemma hasPitch_In (v : string) (l : Loop.t) :
  hasPitch v l = true <-> In v (map Note.pitch (Loop.notes l)).
Proof.
  unfold hasPitch. rewrite existsb_exists, in_map_iff. split.
  - intros [n [Hn Heq]]. apply String.eqb_eq in Heq. now exists n.
  - intros [n [Heq Hn]]. exists n. split; [assumption |]. now apply String.eqb_eq.
Qed.

Lemma setAdd_In (v x : string) (s : list string) :
  In v (setAdd s x) <-> In v s \/ v = x.
Proof.
  unfold setAdd. destruct (includes x s) eqn:E.
  - apply includes_In in E. split; [now left |]. intros [H | ->]; assumption.
  - rewrite in_app_iff. simpl. intuition.
Qed.

Lemma fold_setAdd_In (v : string) (l s : list string) :
  In v (fold_left setAdd l s) <-> In v s \/ In v l.
Proof.
  revert s. induction l as [| x l IH]; intros s; simpl; [intuition |].
  rewrite IH, setAdd_In. intuition.
Qed.

Lemma fold_notes_setAdd (notes : list Note.t) (s : list string) :
  fold_left (fun acc note => setAdd acc (Note.pitch note)) notes s
  = fold_left setAdd (map Note.pitch notes) s.
Proof.
  revert s. induction notes as [| n notes IH]; intros s; simpl; [reflexivity |].
  apply IH.
Qed.

Lemma fold_loops_setAdd_In (v : string) (ls : list Loop.t) (s : list string) :
  In v (fold_left
          (fun sounds loop =>
             fold_left (fun acc note => setAdd acc (Note.pitch note)) (Loop.notes loop) sounds)
          ls s)
  <-> In v s \/ exists l, In l ls /\ hasPitch v l = true.
Proof.
  revert s. induction ls as [| l ls IH]; intros s; simpl.
  - split; [now left |]. intros [H | [l [[] _]]]. exact H.
  - rewrite IH, fold_notes_setAdd, fold_setAdd_In. split.
    + intros [[H | H] | [l' [Hl' Hp]]].
      * now left.
      * right. exists l. split; [now left |]. now apply hasPitch_In.
      * right. exists l'. split; [now right | assumption].
    + intros [H | [l' [[<- | Hl'] Hp]]].
      * left. now left.
      * left. right. now apply hasPitch_In.
      * right. now exists l'.
Qed.

(** The set [usedDrumSounds] holds exactly the pitches of the notes of the
    committed drum loops. *)
Lemma usedDrumSounds_In (v : string) (p : Peer) :
  In v (usedDrumSounds p)
  <-> exists l, In l (SessionState.loops (sessionState p))
                /\ isDrumLoop l = true /\ hasPitch v l = true.
Proof.
  unfold usedDrumSounds. rewrite fold_loops_setAdd_In. split.
  - intros [[] | [l [Hl Hp]]]. apply filter_In in Hl. exists l. tauto.
  - intros [l [Hl [Hd Hp]]]. right. exists l. split; [| assumption].
    apply filter_In. tauto.
Qed.

Lemma voiceOwners_unused (v : string) (p : Peer) :
  ~ In v (usedDrumSounds p) ->
  voiceOwners v (SessionState.loops (sessionState p)) = 0%nat.
Proof.
  intros Hunused. unfold voiceOwners.
  destruct (filter _ _) as [| l rest] eqn:E; [reflexivity |].
  exfalso. apply Hunused, usedDrumSounds_In.
  assert (Hl : In l (filter (fun l => isDrumLoop l && hasPitch v l)
                            (SessionState.loops (sessionState p))))
    by (rewrite E; now left).
  apply filter_In in Hl. destruct Hl as [Hl Hb].
  apply andb_true_iff in Hb. exists l. tauto.
Qed.

Lemma filter_filter_length_le {A : Type} (f g : A -> bool) (l : list A) :
  (List.length (filter g (filter f l)) <= List.length (filter g l))%nat.
Proof.
  induction l as [| x l IH]; simpl; [lia |].
  destruct (f x), (g x) eqn:Eg; simpl; rewrite ?Eg; simpl; lia.
Qed.

(** Whatever branch the replacement step takes, it keeps a sub-array of the
    committed loops. *)
Lemma keepLoops_filter (p : Peer) :
  exists f, keepLoops p = filter f (SessionState.loops (sessionState p)).
Proof.
  unfold keepLoops.
  match goal with |- context [if ?c then _ else _] => destruct c end;
    eexists; reflexivity.
Qed.

(** A drum draft without conflict uses no pitch of a committed drum loop. *)
Lemma drumConflict_none (p : Peer) (n : Note.t) :
  draftInstrument p = drums ->
  drumConflict p = None ->
  In n (drumsToNotes (drumsDraft p)) ->
  ~ In (Note.pitch n) (usedDrumSounds p).
Proof.
  unfold drumConflict. intros -> Hnone Hn Hused.
  destruct (filter _ _) as [| c cs] eqn:E; [| discriminate].
  assert (Hin : In (Note.pitch n)
                   (filter (fun s => includes s (usedDrumSounds p))
                           (fold_left setAdd (map Note.pitch (drumsToNotes (drumsDraft p))) []))).
  { apply filter_In. split.
    - apply fold_setAdd_In. right. now apply in_map.
    - now apply includes_In. }
  rewrite E in Hin. contradiction.
Qed.

(** Conversely, a shared pitch makes [drumConflict] non-null. *)
Lemma drumConflict_some (p : Peer) (n : Note.t) :
  draftInstrument p = drums ->
  In n (drumsToNotes (drumsDraft p)) ->
  In (Note.pitch n) (usedDrumSounds p) ->
  drumConflict p <> None.
Proof.
  intros Hinst Hn Hused Hnone.
  exact (drumConflict_none p n Hinst Hnone Hn Hused).
Qed.

(** At a render that shows the state written last, the values of the render
    are those of the peer. *)
Ltac at_fresh_render p :=
  unfold commitDraft, commitDraftAt; cbv zeta;
  change (isMyTurn (renderView (sessionState p) p)) with (isMyTurn p);
  change (drumConflict (renderView (sessionState p) p)) with (drumConflict p).

(** The outcomes of [commitDraftAt]: a rejection that returns the peer as it
    was, decided on the values of the render, or a publish of the loops kept
    from [sessionStateRef.current] followed by the new loop. *)
Lemma commitDraftAt_cases (w : Z -> Z -> Z) (seen : SessionState.t) (now : Z)
    (freshId : string) (ack : bool) (p : Peer) :
  (commitDraftAt w seen now freshId ack p = p
   /\ (isMyTurn (renderView seen p) = false
       \/ getDraftNotes p = []
       \/ (draftInstrument p = drums /\ drumConflict (renderView seen p) <> None)))
  \/ (isMyTurn (renderView seen p) = true
      /\ getDraftNotes p <> []
      /\ (draftInstrument p = drums -> drumConflict (renderView seen p) = None)
      /\ exists newLoop,
           Loop.id newLoop = freshId
           /\ Loop.instrument newLoop = draftInstrument p
           /\ Loop.notes newLoop = getDraftNotes p
           /\ SessionState.loops (sessionState (commitDraftAt w seen now freshId ack p))
              = keepLoops p ++ [newLoop]).
Proof.
  unfold commitDraftAt. cbv zeta.
  destruct (isMyTurn (renderView seen p)); cbn [negb]; [| left; auto].
  destruct (getDraftNotes p) as [| n notes] eqn:Hnotes; [left; auto |].
  destruct (draftInstrument p) eqn:Hinst, (drumConflict (renderView seen p)) eqn:Hconf;
    try (left; split; [reflexivity | right; right; split; [reflexivity | discriminate]]);
    right; (split; [reflexivity |]); (split; [discriminate |]);
    (split; [intros; congruence |]);
    eexists; (repeat split);
    try (rewrite clearDraft_sessionState; unfold setReplaceTarget;
         cbn [sessionState withDrafts]; rewrite publishState_sessionState;
         cbn [SessionState.loops]; reflexivity);
    reflexivity.
Qed.

(** The same at a render that shows the state written last. *)
Lemma commitDraft_cases (w : Z -> Z -> Z) (now : Z) (freshId : string) (ack : bool) (p : Peer) :
  (commitDraft w now freshId ack p = p
   /\ (isMyTurn p = false
       \/ getDraftNotes p = []
       \/ (draftInstrument p = drums /\ drumConflict p <> None)))
  \/ (isMyTurn p = true
      /\ getDraftNotes p <> []
      /\ (draftInstrument p = drums -> drumConflict p = None)
      /\ exists newLoop,
           Loop.id newLoop = freshId
           /\ Loop.instrument newLoop = draftInstrument p
           /\ Loop.notes newLoop = getDraftNotes p
           /\ SessionState.loops (sessionState (commitDraft w now freshId ack p))
              = keepLoops p ++ [newLoop]).
Proof. exact (commitDraftAt_cases w (sessionState p) now freshId ack p). Qed.

(** *** Rejection *)

(** A commit whose closure sees another holder, an empty draft or a drum
    conflict returns the peer exactly as it was: the session state is
    unchanged and nothing is handed to the relay.  The holder and the
    conflict are those of the render. *)
Lemma commitDraftAt_refused (w : Z -> Z -> Z) (seen : SessionState.t) (now : Z)
    (freshId : string) (ack : bool) (p : Peer) :
  (isMyTurn (renderView seen p) = false
   \/ getDraftNotes p = []
   \/ (draftInstrument p = drums /\ drumConflict (renderView seen p) <> None)) ->
  commitDraftAt w seen now freshId ack p = p.
Proof.
  intros Hpre. unfold commitDraftAt. cbv zeta.
  destruct Hpre as [Hturn | [Hempty | [Hinst Hconf]]].
  - now rewrite Hturn.
  - destruct (negb (isMyTurn (renderView seen p))); [reflexivity |]. now rewrite Hempty.
  - destruct (negb (isMyTurn (renderView seen p))); [reflexivity |].
    destruct (getDraftNotes p); [reflexivity |].
    rewrite Hinst. destruct (drumConflict (renderView seen p)); [reflexivity | congruence].
Qed.

(** The three refusals at a render that shows the state written last: out
    of turn, with an empty draft, and with a kick drafted while a committed
    drum loop owns the kick. *)
Example commitDraft_refusals :
  commitDraft sampleWindowMs 6000 "f1" true outOfTurnComposer = outOfTurnComposer
  /\ commitDraft sampleWindowMs 6000 "f1" true emptyDraftComposer = emptyDraftComposer
  /\ commitDraft sampleWindowMs 6000 "f1" true kickAgainComposer = kickAgainComposer.
Proof. repeat split; reflexivity. Qed.

(** C8 at the failing input.  Ben's turn has run out and the leader has
    passed it to Ada; the state that says so has reached Ben, so
    [sessionStateRef.current] names Ada and Ben does not hold the active
    turn.  The component has not rendered since: [isMyTurn] in the closure of
    [commitDraft] is still true, the commit goes through, and a new state with
    Ben's loop is adopted and handed to the relay.  Once the component has
    rendered the adopted state the same call changes nothing. *)
Theorem commitDraftAt_out_of_turn_publishes_before_render :
  let p := benBeforeRender in
  let p' := commitDraftAt sampleWindowMs benHoldsBen 37600 "f1" true p in
  Identity.id (identity p) = "ben"
  /\ option_map Turn.userId (SessionState.activeTurn (sessionState p)) = Some "ada"
  /\ isMyTurn p = false
  /\ isMyTurn (renderView benHoldsBen p) = true
  /\ published p' = sessionState p' :: published p
  /\ sessionState p' <> sessionState p
  /\ map Loop.id (SessionState.loops (sessionState p')) = ["f1"]
  /\ map Loop.userId (SessionState.loops (sessionState p')) = ["ben"]
  /\ SessionState.version (sessionState p') = 37600
  /\ commitDraft sampleWindowMs 37600 "f1" true p = p.
Proof.
  repeat split; try reflexivity.
  intros H. apply (f_equal SessionState.version) in H. vm_compute in H. discriminate.
Qed.

(** *** Drum voices *)

Lemma voiceOwners_app (v : string) (l1 l2 : list Loop.t) :
  voiceOwners v (l1 ++ l2) = (voiceOwners v l1 + voiceOwners v l2)%nat.
Proof. unfold voiceOwners. now rewrite filter_app, length_app. Qed.

(** A drum draft that shares a pitch with a drum loop of the rendered state
    is refused. *)
Lemma commitDraftAt_shared_pitch_rejected
    (w : Z -> Z -> Z) (seen : SessionState.t) (now : Z) (freshId : string) (ack : bool)
    (p : Peer) (n : Note.t) (l : Loop.t) :
  draftInstrument p = drums ->
  In n (getDraftNotes p) ->
  In l (SessionState.loops seen) ->
  Loop.instrument l = drums ->
  hasPitch (Note.pitch n) l = true ->
  In (Note.pitch n) (usedDrumSounds (renderView seen p))
  /\ commitDraftAt w seen now freshId ack p = p.
Proof.
  intros Hinst Hn Hl Hdrum Hpitch.
  assert (Hused : In (Note.pitch n) (usedDrumSounds (renderView seen p))).
  { apply usedDrumSounds_In. exists l. repeat split; auto.
    unfold isDrumLoop. now rewrite Hdrum. }
  split; [exact Hused |].
  destruct (commitDraftAt_cases w seen now freshId ack p) as [[Hsame _] | [_ [_ [Hnone _]]]];
    [exact Hsame |].
  exfalso. unfold getDraftNotes in Hn. rewrite Hinst in Hn.
  exact (drumConflict_none (renderView seen p) n Hinst (Hnone Hinst) Hn Hused).
Qed.

(** When the render shows the committed loops, the voice count never grows
    by more than the new loop's own use of the voice, and a new drum loop
    only uses free voices. *)
Lemma commitDraftAt_voiceOwners
    (w : Z -> Z -> Z) (seen : SessionState.t) (now : Z) (freshId : string) (ack : bool)
    (p : Peer) (v : string) :
  SessionState.loops seen = SessionState.loops (sessionState p) ->
  (voiceOwners v (SessionState.loops (sessionState p)) <= 1)%nat ->
  (voiceOwners v (SessionState.loops (sessionState (commitDraftAt w seen now freshId ack p)))
   <= 1)%nat.
Proof.
  intros Hshown Hpre.
  destruct (commitDraftAt_cases w seen now freshId ack p)
    as [[Hsame _] | [_ [_ [Hnone [newLoop [_ [Hinst [Hnotes Hloops]]]]]]]].
  - now rewrite Hsame.
  - rewrite Hloops, voiceOwners_app.
    destruct (keepLoops_filter p) as [f Hkeep].
    assert (Hkept : (voiceOwners v (keepLoops p)
                     <= voiceOwners v (SessionState.loops (sessionState p)))%nat).
    { rewrite Hkeep. unfold voiceOwners. apply filter_filter_length_le. }
    unfold voiceOwners at 2. cbn [filter].
    destruct (isDrumLoop newLoop && hasPitch v newLoop) eqn:Enew; cbn [List.length]; [| lia].
    apply andb_true_iff in Enew. destruct Enew as [Hdrum Hhas].
    assert (Hdraft : draftInstrument p = drums).
    { rewrite <- Hinst. unfold isDrumLoop in Hdrum.
      now destruct (Instrument_eqb_spec (Loop.instrument newLoop) drums). }
    apply hasPitch_In in Hhas. rewrite Hnotes in Hhas.
    apply in_map_iff in Hhas. destruct Hhas as [n [Hpitch Hn]].
    unfold getDraftNotes in Hn. rewrite Hdraft in Hn.
    assert (Hfree : ~ In v (usedDrumSounds (renderView seen p))).
    { rewrite <- Hpitch.
      exact (drumConflict_none (renderView seen p) n Hdraft (Hnone Hdraft) Hn). }
    pose proof (voiceOwners_unused v (renderView seen p) Hfree) as Hzero.
    change (SessionState.loops (sessionState (renderView seen p)))
      with (SessionState.loops seen) in Hzero.
    rewrite Hshown in Hzero. lia.
Qed.

(** At a render that shows the committed loops, [commitDraft] keeps drum
    voices exclusive and refuses a drum draft that reuses a voice of a
    committed drum loop. *)
Lemma commitDraftAt_keeps_voices_exclusive_when_loops_shown :
  forall (w : Z -> Z -> Z) (seen : SessionState.t) (now : Z) (freshId : string)
         (ack : bool) (p : Peer),
    SessionState.loops seen = SessionState.loops (sessionState p) ->
    drumExclusive (SessionState.loops (sessionState p)) ->
    drumExclusive (SessionState.loops (sessionState (commitDraftAt w seen now freshId ack p)))
    /\ forall (n : Note.t) (l : Loop.t),
         draftInstrument p = drums ->
         In n (getDraftNotes p) ->
         In l (SessionState.loops (sessionState p)) ->
         Loop.instrument l = drums ->
         hasPitch (Note.pitch n) l = true ->
         commitDraftAt w seen now freshId ack p = p.
Proof.
  intros w seen now freshId ack p Hshown Hpre. split.
  - intros r. apply commitDraftAt_voiceOwners; [exact Hshown | apply Hpre].
  - intros n l Hinst Hn Hl Hdrum Hhas. rewrite <- Hshown in Hl.
    exact (proj2 (commitDraftAt_shared_pitch_rejected w seen now freshId ack p n l
                    Hinst Hn Hl Hdrum Hhas)).
Qed.

(** C7 at the failing input.  Ada has rendered her turn with no loop
    committed and has drafted a kick.  Ben's commit of a kick loop reaches
    her and is adopted: [sessionStateRef.current] holds a committed drum loop
    that uses the kick.  The component has not rendered since, so
    [drumConflict] in the closure of [commitDraft] is still null: the draft
    is not refused, a state with Ada's kick loop is adopted and handed to
    the relay.  Once the component has rendered the adopted state,
    [drumConflict] lists the kick and the same call changes nothing. *)
Theorem commitDraftAt_commits_voice_of_committed_drum_loop :
  let p := adaBeforeRender in
  let p' := commitDraftAt sampleWindowMs turnPassedToAda 37700 "f2" true p in
  map Loop.id (SessionState.loops (sessionState p)) = ["f1"]
  /\ forallb (fun l => isDrumLoop l && hasPitch "kick" l)
       (SessionState.loops (sessionState p)) = true
  /\ draftInstrument p = drums
  /\ map Note.pitch (getDraftNotes p) = ["kick"]
  /\ drumConflict p = Some ["kick"]
  /\ drumConflict (renderView turnPassedToAda p) = None
  /\ isMyTurn (renderView turnPassedToAda p) = true
  /\ published p' = sessionState p' :: published p
  /\ sessionState p' <> sessionState p
  /\ drumsDraft p' = createEmptyDrums
  /\ commitDraft sampleWindowMs 37700 "f2" true p = p.
Proof.
  repeat split; try reflexivity.
  intros H. apply (f_equal SessionState.version) in H. vm_compute in H. discriminate.
Qed.


(** *** Capacity *)

Lemma countInstrument_app (inst : Instrument) (l1 l2 : list Loop.t) :
  countInstrument inst (l1 ++ l2) = countInstrument inst l1 + countInstrument inst l2.
Proof. unfold countInstrument. rewrite filter_app, length_app. lia. Qed.

Lemma countInstrument_filter_le (inst : Instrument) (f : Loop.t -> bool) (l : list Loop.t) :
  countInstrument inst (filter f l) <= countInstrument inst l.
Proof.
  unfold countInstrument.
  pose proof (filter_filter_length_le f (fun x => Instrument_eqb (Loop.instrument x) inst) l).
  lia.
Qed.

Lemma countInstrument_without_instrument (inst : Instrument) (l : list Loop.t) :
  countInstrument inst (filter (fun x => negb (Instrument_eqb (Loop.instrument x) inst)) l) = 0.
Proof.
  unfold countInstrument. induction l as [| x l IH]; [reflexivity |].
  simpl. destruct (Instrument_eqb (Loop.instrument x) inst) eqn:E; simpl; [exact IH |].
  rewrite E. exact IH.
Qed.

(** Removing by the id of a loop of the instrument removes at least it. *)
Lemma countInstrument_without_id (inst : Instrument) (e : Loop.t) (l : list Loop.t) :
  In e l -> Loop.instrument e = inst ->
  countInstrument inst (filter (fun x => negb (String.eqb (Loop.id x) (Loop.id e))) l) + 1
  <= countInstrument inst l.
Proof.
  unfold countInstrument. intros Hin Hinst.
  induction l as [| x l IH]; [contradiction |].
  destruct Hin as [-> | Hin].
  - simpl. rewrite String.eqb_refl. simpl.
    rewrite Hinst. destruct (Instrument_eqb_spec inst inst); [| congruence].
    pose proof (filter_filter_length_le
                  (fun x => negb (String.eqb (Loop.id x) (Loop.id e)))
                  (fun x => Instrument_eqb (Loop.instrument x) inst) l).
    simpl List.length. lia.
  - specialize (IH Hin). simpl.
    destruct (String.eqb (Loop.id x) (Loop.id e)); simpl;
      destruct (Instrument_eqb (Loop.instrument x) inst); simpl List.length; lia.
Qed.

(** The replacement step keeps the capacity bound when the instrument is
    below its limit, and at the limit when the loop it removes is a committed
    loop of the instrument: the oldest one, or the one the replacement choice
    names. *)
Lemma keepLoops_within_capacity (p : Peer) (newLoop : Loop.t) :
  Loop.instrument newLoop = draftInstrument p ->
  withinCapacity (SessionState.loops (sessionState p)) ->
  (countInstrument (draftInstrument p) (SessionState.loops (sessionState p))
   < loopLimit (draftInstrument p)
   \/ replaceTarget p = None
   \/ exists e, In e (SessionState.loops (sessionState p))
                /\ Loop.instrument e = draftInstrument p
                /\ replaceTarget p = Some (Loop.id e)) ->
  withinCapacity (keepLoops p ++ [newLoop]).
Proof.
  intros Hinst Hpre Htarget inst. rewrite countInstrument_app.
  assert (Hnew : countInstrument inst [newLoop]
                 = if Instrument_eqb (draftInstrument p) inst then 1 else 0).
  { unfold countInstrument. simpl. rewrite Hinst.
    now destruct (Instrument_eqb (draftInstrument p) inst). }
  rewrite Hnew.
  destruct (Instrument_eqb_spec (draftInstrument p) inst) as [Heq | Hneq].
  - subst inst. unfold keepLoops.
    set (all := SessionState.loops (sessionState p)) in *.
    set (existing := filter (fun l => Instrument_eqb (Loop.instrument l) (draftInstrument p)) all).
    destruct (Z.of_nat (List.length existing) >=? loopLimit (draftInstrument p)) eqn:Efull.
    + assert (Hvictim : exists e, In e all /\ Loop.instrument e = draftInstrument p
                  /\ match replaceTarget p with
                     | Some target => target
                     | None => match existing with e0 :: _ => Loop.id e0 | [] => EmptyString end
                     end = Loop.id e).
      { destruct Htarget as [Hbelow | [-> | [e [He [Hi ->]]]]]; [| | now exists e].
        - apply Z.geb_le in Efull. unfold countInstrument in Hbelow.
          fold existing in Hbelow. lia.
        - destruct existing as [| e0 rest] eqn:Eex.
          + apply Z.geb_le in Efull. simpl in Efull.
            destruct (draftInstrument p); vm_compute in Efull; contradiction.
          + assert (He0 : In e0 existing) by (rewrite Eex; now left).
            apply filter_In in He0. destruct He0 as [He0 Hi0].
            exists e0. repeat split; auto.
            now destruct (Instrument_eqb_spec (Loop.instrument e0) (draftInstrument p)). }
      destruct Hvictim as [e [He [Hi ->]]].
      pose proof (countInstrument_without_id (draftInstrument p) e all He Hi).
      specialize (Hpre (draftInstrument p)). fold all in Hpre. lia.
    + rewrite countInstrument_without_instrument.
      destruct (draftInstrument p); vm_compute; discriminate.
  - destruct (keepLoops_filter p) as [f ->].
    pose proof (countInstrument_filter_le inst f (SessionState.loops (sessionState p))).
    specialize (Hpre inst). lia.
Qed.

(** X22: the capacity bound is kept when the replacement choice is empty or
    names a committed loop of the draft's instrument. *)
Lemma commitDraft_capacity_with_valid_target
    (w : Z -> Z -> Z) (now : Z) (freshId : string) (ack : bool) (p : Peer) :
  withinCapacity (SessionState.loops (sessionState p)) ->
  (replaceTarget p = None
   \/ exists e, In e (SessionState.loops (sessionState p))
                /\ Loop.instrument e = draftInstrument p
                /\ replaceTarget p = Some (Loop.id e)) ->
  withinCapacity (SessionState.loops (sessionState (commitDraft w now freshId ack p))).
Proof.
  intros Hpre Htarget.
  destruct (commitDraft_cases w now freshId ack p)
    as [[Hsame _] | [_ [_ [_ [newLoop [_ [Hinst [_ Hloops]]]]]]]].
  - now rewrite Hsame.
  - rewrite Hloops. apply keepLoops_within_capacity; auto.
Qed.


(** With no replacement choice the same commit replaces the oldest keys
    loop and stays at capacity. *)
Example commitDraft_default_target_replaces_first :
  map Loop.id
      (SessionState.loops
         (sessionState (commitDraft sampleWindowMs 6000 "f1" true defaultTargetComposer)))
  = ["k2"; "f1"].
Proof. reflexivity. Qed.

(** Below capacity the kept loops are those of the other instruments: the
    commit of a kick next to one committed snare loop leaves the keys loop
    and the new loop. *)
Example commitDraft_below_capacity_keeps_other_instruments :
  map Loop.id
      (SessionState.loops
         (sessionState (commitDraft sampleWindowMs 6000 "f1" true kickComposer)))
  = ["k1"; "f1"].
Proof. reflexivity. Qed.

(** * Further properties of the code *)

(** ** The queue under membership churn *)

Section StableSortChurn.
Context {A : Type} (key : A -> Z).

Lemma insertBy_below_all (x : A) (l : list A) :
  Forall (fun z => key x <= key z) l -> insertBy key x l = x :: l.
Proof.
  intros Hall. destruct l as [| y l]; [reflexivity |].
  inversion Hall as [| ? ? Hy _]; subst. simpl.
  apply Z.leb_le in Hy. now rewrite Hy.
Qed.

Lemma sortBy_sorted_id (l : list A) :
  StronglySorted (fun a b => key a <= key b) l -> sortBy key l = l.
Proof.
  induction 1 as [| x l Hs IH Hall]; [reflexivity |].
  simpl. rewrite IH. now apply insertBy_below_all.
Qed.

Lemma insertBy_filter (f : A -> bool) (x : A) (l : list A) :
  StronglySorted (fun a b => key a <= key b) l ->
  filter f (insertBy key x l)
  = if f x then insertBy key x (filter f l) else filter f l.
Proof.
  induction 1 as [| y l Hs IH Hall]; simpl.
  - now destruct (f x).
  - destruct (key x <=? key y) eqn:E.
    + apply Z.leb_le in E. simpl. destruct (f x) eqn:Ex; [| reflexivity].
      symmetry. apply insertBy_below_all.
      assert (Hall' : Forall (fun z => key x <= key z) (y :: l)).
      { constructor; [exact E |].
        eapply Forall_impl; [| exact Hall]. intros z Hz. simpl in Hz. lia. }
      change (if f y then y :: filter f l else filter f l) with (filter f (y :: l)).
      apply Forall_forall. intros z Hz. apply filter_In in Hz.
      rewrite Forall_forall in Hall'. now apply Hall'.
    + simpl. rewrite IH. destruct (f y) eqn:Ey, (f x) eqn:Ex; simpl; rewrite ?E; reflexivity.
Qed.

Lemma sortBy_filter (f : A -> bool) (l : list A) :
  sortBy key (filter f l) = filter f (sortBy key l).
Proof.
  induction l as [| x l IH]; [reflexivity |].
  simpl. rewrite insertBy_filter by apply sortBy_sorted.
  destruct (f x); simpl; now rewrite IH.
Qed.
End StableSortChurn.

(** X1: the queue holds exactly the enumerated members, each as often as it
    was enumerated, in ascending order of [joinedAt]. *)
Theorem queueFromPresence_sorted_permutation :
  forall members : list Participant.t,
    Permutation (queueFromPresence members) members
    /\ StronglySorted
         (fun a b => Participant.joinedAt a <= Participant.joinedAt b)
         (queueFromPresence members).
Proof.
  intros members. split; [apply sortBy_perm | apply sortBy_sorted].
Qed.

(** X2: departures do not reorder the queue.  The queue computed from the
    members that stay is the old queue with the leavers taken out. *)
Theorem queueFromPresence_departure_keeps_order :
  forall (stays : Participant.t -> bool) (members : list Participant.t),
    queueFromPresence (filter stays members)
    = filter stays (queueFromPresence members).
Proof. intros stays members. apply sortBy_filter. Qed.

(** X3: sorting a queue again changes nothing, so the queue the component
    derives from [participants] (already sorted by [updatePresence]) is
    [participants] itself. *)
Theorem queueFromPresence_idempotent :
  forall members : list Participant.t,
    queueFromPresence (queueFromPresence members) = queueFromPresence members.
Proof.
  intros members. apply sortBy_sorted_id, sortBy_sorted.
Qed.

(** ** Live delivery *)

Lemma merge_version_monotone (local incoming : SessionState.t) :
  0 <= SessionState.version local ->
  0 <= SessionState.version incoming ->
  SessionState.version local <= SessionState.version (merge local incoming).
Proof.
  intros Hl Hi. unfold merge.
  destruct (accepts local incoming) eqn:E; [| lia].
  apply accepts_iff_version_ge in E; auto. lia.
Qed.

(** X5: over wall-clock versions the subscription handler never lowers the
    local version, however many messages arrive and in whatever order. *)
Theorem deliverAll_version_monotone :
  forall (l : list SessionState.t) (p : Peer),
    0 <= SessionState.version (sessionState p) ->
    Forall (fun u => 0 <= SessionState.version u) l ->
    SessionState.version (sessionState p)
    <= SessionState.version (sessionState (deliverAll l p)).
Proof.
  intros l p Hp Hall. rewrite deliverAll_sessionState.
  generalize dependent (sessionState p). clear p.
  induction Hall as [| x l Hx Hall IH]; intros s Hs; cbn [fold_left]; [lia |].
  pose proof (merge_version_monotone s x Hs Hx) as Hstep.
  assert (Hm : 0 <= SessionState.version (merge s x)) by lia.
  specialize (IH (merge s x) Hm). lia.
Qed.

Lemma deliverAll_version_monotone_witness :
  SessionState.version (sessionState thirdPeerAt1001)
  <= SessionState.version
       (sessionState (deliverAll [genesis1000; benHoldsTurn] thirdPeerAt1001)).
Proof.
  apply (deliverAll_version_monotone [genesis1000; benHoldsTurn] thirdPeerAt1001).
  - vm_compute. discriminate.
  - repeat constructor; vm_compute; discriminate.
Defined.

(** X6: a fresh peer that has been handed a state, over the subscription or
    by the history fetch, never bootstraps afterwards: the genesis effect
    leaves it as it is. *)
Theorem bootstrapEffect_after_state_is_noop :
  forall (w : Z -> Z -> Z) (now : Z) (ack : bool) (s : SessionState.t) (p : Peer),
    SessionState.version (sessionState p) = 0 ->
    let live := onStateMessage (Some s) p in
    let fetched := onHistory (Some [ {| msgName := "state"; msgData := Some s |} ]) p in
    sessionState live = s
    /\ bootstrapEffect w now ack live = live
    /\ sessionState fetched = s
    /\ bootstrapEffect w now ack fetched = fetched.
Proof.
  intros w now ack s p H0 live fetched.
  assert (Hacc : accepts (sessionState p) s = true)
    by (unfold accepts; rewrite H0; reflexivity).
  assert (Hlive : live = withSession p s true)
    by (unfold live, onStateMessage; now rewrite Hacc).
  assert (Hfetched : fetched = withSession p s true) by reflexivity.
  rewrite Hlive, Hfetched. repeat split; try reflexivity;
    unfold bootstrapEffect; cbn [stateLoaded withSession];
    now rewrite !orb_true_r.
Qed.

Lemma bootstrapEffect_after_state_witness :
  let live := onStateMessage (Some genesis1001) thirdPeer in
  let fetched :=
    onHistory (Some [ {| msgName := "state"; msgData := Some genesis1001 |} ]) thirdPeer in
  sessionState live = genesis1001
  /\ bootstrapEffect sampleWindowMs 2000 true live = live
  /\ sessionState fetched = genesis1001
  /\ bootstrapEffect sampleWindowMs 2000 true fetched = fetched.
Proof.
  apply (bootstrapEffect_after_state_is_noop sampleWindowMs 2000 true genesis1001 thirdPeer).
  reflexivity.
Defined.

Lemma bootstrapEffect_publishes_only_as_head_witness :
  let p := joinedPeer idAda [asParticipant idAda] in
  identityReady p = true /\ channelRef p = true /\ stateLoaded p = false
  /\ isLeader p = true
  /\ (SessionState.creatorId (sessionState p) = None
      \/ SessionState.creatorId (sessionState p) = Some EmptyString).
Proof.
  apply (bootstrapEffect_publishes_only_as_head sampleWindowMs 1000 true
           (joinedPeer idAda [asParticipant idAda]) genesis1000).
  reflexivity.
Defined.

(** ** Rotation *)

Lemma indexOf_nth_error (l : list string) (i : nat) (x : string) :
  NoDup l -> nth_error l i = Some x -> indexOf x l = Z.of_nat i.
Proof.
  revert i. induction l as [| y l IH]; intros i Hnd Hnth.
  - destruct i; discriminate.
  - inversion Hnd as [| ? ? Hnotin Hnd']; subst.
    destruct i as [| i]; simpl in Hnth.
    + injection Hnth as ->. simpl. now rewrite String.eqb_refl.
    + simpl indexOf.
      destruct (String.eqb y x) eqn:E.
      * apply String.eqb_eq in E. subst y.
        exfalso. apply Hnotin. eapply nth_error_In; eassumption.
      * rewrite (IH i Hnd' Hnth).
        destruct (Z.of_nat i <? 0) eqn:Eneg; [apply Z.ltb_lt in Eneg; lia | lia].
Qed.

Lemma arrayAt_nth_error (l : list string) (k : nat) :
  (k < List.length l)%nat -> nth_error l k = Some (arrayAt l (Z.of_nat k)).
Proof.
  intros Hk. unfold arrayAt.
  destruct (Z.of_nat k <? 0) eqn:E; [apply Z.ltb_lt in E; lia |].
  rewrite Nat2Z.id. now apply nth_error_nth'.
Qed.

Lemma nextIndex_of_nat (i : nat) (l : list string) :
  l <> [] ->
  nextIndex (Z.of_nat i) l = Z.of_nat ((i + 1) mod List.length l).
Proof.
  intros Hne. unfold nextIndex.
  assert (0 < Z.of_nat (List.length l)) by (destruct l; simpl in *; [congruence | lia]).
  rewrite Z.rem_mod_nonneg by lia.
  rewrite Nat2Z.inj_mod, Nat2Z.inj_add. reflexivity.
Qed.

(** The member the rotation reads after position [i] of a queue without
    repeated ids is the one at position [(i + 1) mod length]. *)
Lemma rotation_target (ids : list string) (i : nat) (x : string) :
  NoDup ids -> nth_error ids i = Some x ->
  nth_error ids ((i + 1) mod List.length ids)
  = Some (arrayAt ids (nextIndex (indexOf x ids) ids)).
Proof.
  intros Hnd Hnth.
  assert (Hne : ids <> []) by (intros ->; destruct i; discriminate).
  rewrite (indexOf_nth_error ids i x Hnd Hnth), (nextIndex_of_nat i ids Hne).
  apply arrayAt_nth_error. apply Nat.mod_upper_bound.
  destruct ids; simpl; [congruence | lia].
Qed.



(** X9: a run of the leader's arbitration effect that finds the holder
    still in the queue and the turn run out hands the turn to the holder's
    successor in the queue (to the holder again when alone), starting at the
    second clock reading.  The effect runs when [queue],
    [compositionWindowMs] or [isLeader] change; the passing of [endsAt] does
    not make it run, so the theorem is about the run, not about the moment
    the turn runs out. *)
Theorem leaderEffect_expired_turn_passes_to_successor :
  forall (w : Z -> Z -> Z) (clock1 clock2 : Z) (ack : bool) (p : Peer)
         (holder : Turn.t) (i : nat),
    isLeader p = true ->
    channelRef p = true ->
    SessionState.activeTurn (sessionState p) = Some holder ->
    Turn.endsAt holder <= clock1 ->
    NoDup (map Participant.id (queue p)) ->
    nth_error (map Participant.id (queue p)) i = Some (Turn.userId holder) ->
    exists next,
      nth_error (map Participant.id (queue p))
                ((i + 1) mod List.length (map Participant.id (queue p))) = Some next
      /\ sessionState (leaderEffect w clock1 clock2 ack p)
         = withTurn (sessionState p)
             (Some (Turn.mk next clock2 (clock2 + compositionWindowMs w p))) clock2
      /\ published (leaderEffect w clock1 clock2 ack p)
         = sessionState (leaderEffect w clock1 clock2 ack p) :: published p.
Proof.
  intros w clock1 clock2 ack p holder i Hlead Hchan Hactive Hexp Hnd Hnth.
  eexists. split; [exact (rotation_target _ i _ Hnd Hnth) |].
  assert (Hlen : Nat.eqb (List.length (map Participant.id (queue p))) 0 = false).
  { destruct (map Participant.id (queue p)); [destruct i; discriminate | reflexivity]. }
  apply Z.leb_le in Hexp.
  unfold leaderEffect. rewrite Hlead, Hchan, Hactive. cbn [negb orb].
  rewrite Hexp, Hlen, orb_true_r. cbn [negb andb].
  rewrite publishState_sessionState, publishState_published, Hchan.
  split; reflexivity.
Qed.

Lemma leaderEffect_expired_turn_witness :
  exists next,
    nth_error (map Participant.id (queue kickComposer))
              ((0 + 1) mod List.length (map Participant.id (queue kickComposer))) = Some next
    /\ sessionState (leaderEffect sampleWindowMs 40000 40001 true kickComposer)
       = withTurn (sessionState kickComposer)
           (Some (Turn.mk next 40001
                    (40001 + compositionWindowMs sampleWindowMs kickComposer))) 40001
    /\ published (leaderEffect sampleWindowMs 40000 40001 true kickComposer)
       = sessionState (leaderEffect sampleWindowMs 40000 40001 true kickComposer)
         :: published kickComposer.
Proof.
  apply (leaderEffect_expired_turn_passes_to_successor sampleWindowMs 40000 40001 true
           kickComposer (Turn.mk "ada" 5000 37000) 0).
  - reflexivity.
  - reflexivity.
  - reflexivity.
  - simpl. lia.
  - simpl. repeat constructor; simpl; intuition discriminate.
  - reflexivity.
Defined.

Lemma arrayAt_In (l : list string) (i : Z) :
  0 <= i < Z.of_nat (List.length l) -> In (arrayAt l i) l.
Proof.
  intros Hi. apply (nth_error_In l (Z.to_nat i)).
  rewrite <- (Z2Nat.id i) at 2 by lia.
  apply arrayAt_nth_error. lia.
Qed.

(** What the arbitration publishes: a turn for a member of the queue that
    starts at one of the two clock readings. *)
Lemma leaderEffect_publish_shape
    (w : Z -> Z -> Z) (clock1 clock2 : Z) (ack : bool) (p : Peer) (next : SessionState.t) :
  published (leaderEffect w clock1 clock2 ack p) = next :: published p ->
  isLeader p = true /\ channelRef p = true
  /\ exists member c,
       In member (map Participant.id (queue p))
       /\ In c [clock1; clock2]
       /\ leaderEffect w clock1 clock2 ack p
          = publishState ack (withTurn (sessionState p) (Some (turnFor w p member c)) c) p.
Proof.
  unfold leaderEffect. intros Hpub.
  destruct (isLeader p); cbn [negb orb] in *; [| now apply cons_neq_self in Hpub].
  destruct (channelRef p) eqn:Hchan; cbn [negb] in *; [| now apply cons_neq_self in Hpub].
  split; [reflexivity |]. split; [reflexivity |].
  destruct (SessionState.activeTurn (sessionState p)) as [active |].
  - set (ids := map Participant.id (queue p)) in *.
    destruct ((negb (includes (Turn.userId active) ids) || (Turn.endsAt active <=? clock1))
              && negb (Nat.eqb (List.length ids) 0)) eqn:Efire;
      [| now apply cons_neq_self in Hpub].
    apply andb_true_iff in Efire. destruct Efire as [_ Hlen].
    exists (arrayAt ids (nextIndex (indexOf (Turn.userId active) ids) ids)), clock2.
    split; [| split; [simpl; auto | reflexivity]].
    apply arrayAt_In, nextIndex_in_range.
    + intros Hnil. rewrite Hnil in Hlen. discriminate.
    + apply indexOf_lower_bound.
  - destruct (map Participant.id (queue p)) as [| q0 rest] eqn:Eids;
      [now apply cons_neq_self in Hpub |].
    exists q0, clock1. split; [now left |]. split; [simpl; auto | reflexivity].
Qed.

(** X10: arbitration settles.  Once the leader has published a turn, running
    the arbitration again before that turn can have run out changes
    nothing: no second rotation, nothing published. *)
Theorem leaderEffect_settles_after_publishing :
  forall (w : Z -> Z -> Z) (clock1 clock2 : Z) (ack : bool) (p : Peer)
         (next : SessionState.t) (clock1' clock2' : Z) (ack' : bool),
    published (leaderEffect w clock1 clock2 ack p) = next :: published p ->
    (forall c, In c [clock1; clock2] -> clock1' < c + compositionWindowMs w p) ->
    leaderEffect w clock1' clock2' ack' (leaderEffect w clock1 clock2 ack p)
    = leaderEffect w clock1 clock2 ack p.
Proof.
  intros w clock1 clock2 ack p next clock1' clock2' ack' Hpub Hsoon.
  destruct (leaderEffect_publish_shape w clock1 clock2 ack p next Hpub)
    as [Hlead [Hchan [member [c [Hmember [Hc Hrun]]]]]].
  rewrite Hrun.
  set (st := withTurn (sessionState p) (Some (turnFor w p member c)) c).
  assert (Hq : queue (publishState ack st p) = queue p).
  { unfold publishState, queue. cbn. now rewrite Hchan. }
  assert (Hl : isLeader (publishState ack st p) = true).
  { unfold isLeader in *. rewrite Hq.
    destruct (queue p); [discriminate |].
    unfold publishState. cbn. now rewrite Hchan. }
  assert (Hc' : channelRef (publishState ack st p) = true).
  { unfold publishState. cbn. now rewrite Hchan. }
  unfold leaderEffect at 1.
  rewrite Hl, Hc', publishState_sessionState, Hq. cbn [negb orb].
  unfold st at 1. cbn [SessionState.activeTurn withTurn turnFor Turn.userId Turn.endsAt].
  apply includes_In in Hmember. rewrite Hmember. cbn [negb orb].
  specialize (Hsoon c Hc).
  assert (Hnot : (c + compositionWindowMs w p <=? clock1') = false)
    by (apply Z.leb_gt; lia).
  rewrite Hnot. reflexivity.
Qed.

Lemma leaderEffect_settles_witness :
  leaderEffect sampleWindowMs 7000 7001 false
    (leaderEffect sampleWindowMs 5500 6000 true leaderAfterBenLeft)
  = leaderEffect sampleWindowMs 5500 6000 true leaderAfterBenLeft.
Proof.
  apply (leaderEffect_settles_after_publishing sampleWindowMs 5500 6000 true
           leaderAfterBenLeft
           (sessionState (leaderEffect sampleWindowMs 5500 6000 true leaderAfterBenLeft))
           7000 7001 false).
  - reflexivity.
  - intros c [<- | [<- | []]]; vm_compute; reflexivity.
Defined.

(** ** Tempo, window and playback *)

(** [Math.round] yields the integer within one half of its argument, the
    upper one at a tie. *)
Lemma mathRound_nearest (x : Q) :
  (inject_Z (mathRound x) - (1 # 2) <= x < inject_Z (mathRound x) + (1 # 2))%Q.
Proof.
  unfold mathRound.
  pose proof (Qfloor_le (x + (1 # 2))) as Hle.
  pose proof (Qlt_floor (x + (1 # 2))) as Hlt.
  rewrite inject_Z_plus in Hlt.
  change (inject_Z 1) with 1%Q in Hlt.
  split; lra.
Qed.

Lemma mathRound_integral (n : Z) (x : Q) : (x == inject_Z n)%Q -> mathRound x = n.
Proof.
  intros Hx. unfold mathRound. rewrite Hx.
  unfold Qfloor, Qplus, inject_Z. cbn [Qnum Qden].
  change (Z.pos (1 * 2)) with 2.
  replace (n * 2 + 1 * 1) with (1 + n * 2) by lia.
  rewrite Z.div_add by lia. reflexivity.
Qed.

(** X11: [bpmInput] rounds its input to the nearest integer (a tie going up:
    90.5 becomes 91) and adopts that tempo brought into [60, 180]; an
    integral input inside the range is adopted as it is.  It stamps the
    first clock reading, keeps loops, creator, cycle count and playback
    epoch, and retimes a running turn without changing its holder or start:
    the new end is at least one retimed window after the start and at least
    1500 ms after the second clock reading.  The local state changes even
    when there is no channel to publish to. *)
Theorem bpmInput_clamps_tempo_and_floors_turn_end :
  forall (w' : Z -> Z -> Z) (value : Q) (clock1 clock2 : Z) (ack : bool) (p : Peer),
    let st := sessionState p in
    let st' := sessionState (bpmInput w' value clock1 clock2 ack p) in
    let rounded := mathRound value in
    (inject_Z rounded - (1 # 2) <= value < inject_Z rounded + (1 # 2))%Q
    /\ 60 <= SessionState.bpm st' <= 180
    /\ (60 <= rounded <= 180 -> SessionState.bpm st' = rounded)
    /\ (rounded < 60 -> SessionState.bpm st' = 60)
    /\ (180 < rounded -> SessionState.bpm st' = 180)
    /\ (forall n : Z, (value == inject_Z n)%Q -> 60 <= n <= 180 -> SessionState.bpm st' = n)
    /\ SessionState.version st' = clock1
    /\ SessionState.loops st' = SessionState.loops st
    /\ SessionState.creatorId st' = SessionState.creatorId st
    /\ SessionState.windowCycles st' = SessionState.windowCycles st
    /\ SessionState.playbackStartedAt st' = SessionState.playbackStartedAt st
    /\ match SessionState.activeTurn st, SessionState.activeTurn st' with
       | None, None => True
       | Some a, Some a' =>
           Turn.userId a' = Turn.userId a
           /\ Turn.startedAt a' = Turn.startedAt a
           /\ clock2 + 1500 <= Turn.endsAt a'
           /\ Turn.startedAt a
              + w' (SessionState.bpm st') (SessionState.windowCycles st)
              <= Turn.endsAt a'
       | _, _ => False
       end.
Proof.
  intros w' value clock1 clock2 ack p st st' rounded.
  split; [exact (mathRound_nearest value) |].
  subst st'. unfold bpmInput. rewrite publishState_sessionState.
  cbn [SessionState.bpm SessionState.version SessionState.loops SessionState.creatorId
       SessionState.windowCycles SessionState.playbackStartedAt SessionState.activeTurn].
  unfold clampBpm. fold rounded.
  split; [lia |]. split; [lia |]. split; [lia |]. split; [lia |].
  split.
  { intros n Hn Hrange. subst rounded. rewrite (mathRound_integral n value Hn). lia. }
  repeat split.
  subst st. destruct (SessionState.activeTurn (sessionState p)) as [a |]; [| exact I].
  cbn [option_map retime Turn.userId Turn.startedAt Turn.endsAt].
  repeat split; lia.
Qed.

(** X12: [cycleInput] adopts a cycle count among 2, 4 and 8 (the input when
    it is one of them, 4 otherwise), keeps tempo, loops, creator and
    playback epoch, and retimes a running turn with the same 1500 ms
    floor. *)
Theorem cycleInput_validates_cycles_and_floors_turn_end :
  forall (w' : Z -> Z -> Z) (value clock1 clock2 : Z) (ack : bool) (p : Peer),
    let st := sessionState p in
    let st' := sessionState (cycleInput w' value clock1 clock2 ack p) in
    In (SessionState.windowCycles st') [2; 4; 8]
    /\ (In value [2; 4; 8] -> SessionState.windowCycles st' = value)
    /\ (~ In value [2; 4; 8] -> SessionState.windowCycles st' = 4)
    /\ SessionState.version st' = clock1
    /\ SessionState.bpm st' = SessionState.bpm st
    /\ SessionState.loops st' = SessionState.loops st
    /\ SessionState.creatorId st' = SessionState.creatorId st
    /\ SessionState.playbackStartedAt st' = SessionState.playbackStartedAt st
    /\ match SessionState.activeTurn st, SessionState.activeTurn st' with
       | None, None => True
       | Some a, Some a' =>
           Turn.userId a' = Turn.userId a
           /\ Turn.startedAt a' = Turn.startedAt a
           /\ clock2 + 1500 <= Turn.endsAt a'
           /\ Turn.startedAt a
              + w' (SessionState.bpm st) (SessionState.windowCycles st')
              <= Turn.endsAt a'
       | _, _ => False
       end.
Proof.
  intros w' value clock1 clock2 ack p st st'.
  subst st'. unfold cycleInput. rewrite publishState_sessionState.
  cbn [SessionState.bpm SessionState.version SessionState.loops SessionState.creatorId
       SessionState.windowCycles SessionState.playbackStartedAt SessionState.activeTurn].
  assert (Hvalid : existsb (Z.eqb value) [2; 4; 8] = true <-> In value [2; 4; 8]).
  { rewrite existsb_exists. split.
    - intros [x [Hx Heq]]. apply Z.eqb_eq in Heq. now subst.
    - intros H. exists value. split; [assumption | apply Z.eqb_refl]. }
  destruct (existsb (Z.eqb value) [2; 4; 8]) eqn:E.
  - assert (Hin : In value [2; 4; 8]) by now apply Hvalid.
    repeat split; auto; try (intros; tauto).
    subst st. destruct (SessionState.activeTurn (sessionState p)) as [a |]; [| exact I].
    cbn [option_map retime Turn.userId Turn.startedAt Turn.endsAt]. repeat split; lia.
  - assert (Hnot : ~ In value [2; 4; 8]).
    { intros H. apply Hvalid in H. discriminate. }
    repeat split; auto; try (simpl; tauto); try (intros; tauto).
    subst st. destruct (SessionState.activeTurn (sessionState p)) as [a |]; [| exact I].
    cbn [option_map retime Turn.userId Turn.startedAt Turn.endsAt]. repeat split; lia.
Qed.

Lemma toggleSessionPlayback_step (now : Z) (ack : bool) (p : Peer) :
  channelRef p = true ->
  sessionState (toggleSessionPlayback now ack p)
  = SessionState.mk (SessionState.bpm (sessionState p))
      (SessionState.loops (sessionState p))
      (SessionState.activeTurn (sessionState p)) now
      (SessionState.creatorId (sessionState p))
      (SessionState.windowCycles (sessionState p))
      (match SessionState.playbackStartedAt (sessionState p) with
       | Some _ => None
       | None => Some now
       end)
  /\ channelRef (toggleSessionPlayback now ack p) = true.
Proof.
  intros Hchan. unfold toggleSessionPlayback. rewrite Hchan. cbn [negb].
  rewrite publishState_sessionState. split; [reflexivity |].
  unfold publishState. cbn. now rewrite Hchan.
Qed.

(** X13: one playback toggle flips between paused and playing, stamps the
    clock reading as version and leaves loops, turn, tempo, cycle count and
    creator as they were; a resumed session takes the time of the resume as
    its new epoch, and toggling twice restores the paused/playing status. *)
Theorem toggleSessionPlayback_flips_and_resumes_at_toggle_time :
  forall (t1 t2 : Z) (ack1 ack2 : bool) (p : Peer),
    channelRef p = true ->
    let st := sessionState p in
    let st1 := sessionState (toggleSessionPlayback t1 ack1 p) in
    let st2 := sessionState
                 (toggleSessionPlayback t2 ack2 (toggleSessionPlayback t1 ack1 p)) in
    (SessionState.playbackStartedAt st = None ->
     SessionState.playbackStartedAt st1 = Some t1
     /\ SessionState.playbackStartedAt st2 = None)
    /\ (SessionState.playbackStartedAt st <> None ->
        SessionState.playbackStartedAt st1 = None
        /\ SessionState.playbackStartedAt st2 = Some t2)
    /\ SessionState.version st1 = t1 /\ SessionState.version st2 = t2
    /\ (SessionState.loops st1 = SessionState.loops st
        /\ SessionState.activeTurn st1 = SessionState.activeTurn st
        /\ SessionState.bpm st1 = SessionState.bpm st
        /\ SessionState.windowCycles st1 = SessionState.windowCycles st
        /\ SessionState.creatorId st1 = SessionState.creatorId st)
    /\ SessionState.loops st2 = SessionState.loops st
    /\ SessionState.activeTurn st2 = SessionState.activeTurn st
    /\ SessionState.bpm st2 = SessionState.bpm st
    /\ SessionState.windowCycles st2 = SessionState.windowCycles st
    /\ SessionState.creatorId st2 = SessionState.creatorId st.
Proof.
  intros t1 t2 ack1 ack2 p Hchan st st1 st2.
  pose proof (toggleSessionPlayback_step t1 ack1 p Hchan) as [Hst1 Hchan1].
  pose proof (toggleSessionPlayback_step t2 ack2 _ Hchan1) as [Hst2 _].
  subst st st1 st2. rewrite Hst2, Hst1.
  cbn [SessionState.bpm SessionState.version SessionState.loops SessionState.creatorId
       SessionState.windowCycles SessionState.playbackStartedAt SessionState.activeTurn].
  destruct (SessionState.playbackStartedAt (sessionState p)) as [t0 |].
  - split; [intros H; discriminate H |].
    split; [intros _; split; reflexivity |].
    repeat split; reflexivity.
  - split; [intros _; split; reflexivity |].
    split; [intros H; now contradiction H |].
    repeat split; reflexivity.
Qed.

Lemma toggleSessionPlayback_flips_witness :
  let p := aheadOfClock in
  let st := sessionState p in
  let st1 := sessionState (toggleSessionPlayback 3000 true p) in
  let st2 := sessionState
               (toggleSessionPlayback 4000 false (toggleSessionPlayback 3000 true p)) in
  (SessionState.playbackStartedAt st = None ->
   SessionState.playbackStartedAt st1 = Some 3000
   /\ SessionState.playbackStartedAt st2 = None)
  /\ (SessionState.playbackStartedAt st <> None ->
      SessionState.playbackStartedAt st1 = None
      /\ SessionState.playbackStartedAt st2 = Some 4000)
  /\ SessionState.version st1 = 3000 /\ SessionState.version st2 = 4000
  /\ (SessionState.loops st1 = SessionState.loops st
      /\ SessionState.activeTurn st1 = SessionState.activeTurn st
      /\ SessionState.bpm st1 = SessionState.bpm st
      /\ SessionState.windowCycles st1 = SessionState.windowCycles st
      /\ SessionState.creatorId st1 = SessionState.creatorId st)
  /\ SessionState.loops st2 = SessionState.loops st
  /\ SessionState.activeTurn st2 = SessionState.activeTurn st
  /\ SessionState.bpm st2 = SessionState.bpm st
  /\ SessionState.windowCycles st2 = SessionState.windowCycles st
  /\ SessionState.creatorId st2 = SessionState.creatorId st.
Proof.
  apply (toggleSessionPlayback_flips_and_resumes_at_toggle_time 3000 4000 true false
           aheadOfClock).
  reflexivity.
Defined.

(** ** Drum drafts *)

Lemma rowNotes_In (r : DrumRow) (s : Z) (cells : list bool) (n : Note.t) :
  In n (rowNotes r s cells)
  <-> exists i, nth_error cells i = Some true /\ n = drumNote r (s + Z.of_nat i).
Proof.
  revert s. induction cells as [| c cells IH]; intros s; simpl.
  - split; [contradiction | intros [i [H _]]; destruct i; discriminate].
  - rewrite in_app_iff, IH. split.
    + intros [Hhead | [i [Hi ->]]].
      * destruct c; [| contradiction]. destruct Hhead as [<- | []].
        exists 0%nat. split; [reflexivity |]. unfold drumNote. now rewrite Z.add_0_r.
      * exists (S i). split; [exact Hi |]. f_equal. lia.
    + intros [[| i] [Hi ->]]; simpl in Hi.
      * injection Hi as ->. left. left. unfold drumNote. now rewrite Z.add_0_r.
      * right. exists i. split; [exact Hi |]. f_equal. lia.
Qed.

Lemma rowNotes_length (r : DrumRow) (s : Z) (cells : list bool) :
  List.length (rowNotes r s cells) = count_occ bool_dec cells true.
Proof.
  revert s. induction cells as [| c cells IH]; intros s; simpl; [reflexivity |].
  rewrite length_app, IH. destruct c; simpl; reflexivity.
Qed.

Lemma drumsToNotes_In (g : DrumGrid) (n : Note.t) :
  In n (drumsToNotes g)
  <-> exists r i, nth_error (gridRow g r) i = Some true /\ n = drumNote r (Z.of_nat i).
Proof.
  unfold drumsToNotes. rewrite in_flat_map. split.
  - intros [r [_ Hn]]. apply rowNotes_In in Hn. destruct Hn as [i [Hi ->]].
    exists r, i. split; [exact Hi | reflexivity].
  - intros [r [i [Hi ->]]]. exists r. split.
    + destruct r; simpl; tauto.
    + apply rowNotes_In. exists i. split; [exact Hi | reflexivity].
Qed.

Lemma DrumRow_id_inj (r r' : DrumRow) : DrumRow_id r = DrumRow_id r' -> r = r'.
Proof. destruct r, r'; simpl; intros H; try reflexivity; discriminate. Qed.

Lemma rowNotes_steps_NoDup (r : DrumRow) (s : Z) (cells : list bool) :
  NoDup (map Note.step (rowNotes r s cells))
  /\ Forall (fun n => s <= Note.step n) (rowNotes r s cells).
Proof.
  revert s. induction cells as [| c cells IH]; intros s; simpl.
  - split; constructor.
  - destruct (IH (s + 1)) as [Hnd Hall].
    assert (Hall' : Forall (fun n => s <= Note.step n) (rowNotes r (s + 1) cells)).
    { eapply Forall_impl; [| exact Hall]. intros n Hn. simpl in Hn. lia. }
    destruct c; simpl; [| split; assumption].
    split.
    + constructor; [| exact Hnd].
      intros Hin. apply in_map_iff in Hin. destruct Hin as [n [Hstep Hn]].
      rewrite Forall_forall in Hall. specialize (Hall n Hn). simpl in Hall. lia.
    + constructor; [simpl; lia | exact Hall'].
Qed.

Lemma rowNotes_cells_NoDup (r : DrumRow) (cells : list bool) :
  NoDup (map (fun n => (Note.pitch n, Note.step n)) (rowNotes r 0 cells)).
Proof.
  destruct (rowNotes_steps_NoDup r 0 cells) as [Hnd _].
  apply (NoDup_map_inv snd). rewrite map_map. exact Hnd.
Qed.

Lemma rowNotes_pitch (r : DrumRow) (s : Z) (cells : list bool) (n : Note.t) :
  In n (rowNotes r s cells) -> Note.pitch n = DrumRow_id r.
Proof. intros H. apply rowNotes_In in H. now destruct H as [i [_ ->]]. Qed.

Lemma NoDup_app_disjoint {A : Type} (l1 l2 : list A) :
  NoDup l1 -> NoDup l2 -> (forall x, In x l1 -> ~ In x l2) -> NoDup (l1 ++ l2).
Proof.
  induction l1 as [| a l1 IH]; intros H1 H2 Hdis; simpl; [exact H2 |].
  inversion H1 as [| ? ? Hnotin H1']; subst. constructor.
  - rewrite in_app_iff. intros [H | H]; [contradiction |].
    exact (Hdis a (or_introl eq_refl) H).
  - apply IH; auto. intros x Hx. apply Hdis. now right.
Qed.

(** X14: [drumsToNotes] yields one note per active cell and nothing else:
    a note of the row's voice at the cell's step, of duration 1; there are as
    many notes as active cells, and no two notes share voice and step. *)
Theorem drumsToNotes_one_note_per_active_cell :
  forall g : DrumGrid,
    (forall n : Note.t,
        In n (drumsToNotes g)
        <-> exists (r : DrumRow) (i : nat),
              nth_error (gridRow g r) i = Some true /\ n = drumNote r (Z.of_nat i))
    /\ List.length (drumsToNotes g) = activeCells g
    /\ NoDup (map (fun n => (Note.pitch n, Note.step n)) (drumsToNotes g)).
Proof.
  intros g. split; [intros n; apply drumsToNotes_In |]. split.
  - unfold drumsToNotes, activeCells. simpl.
    rewrite !length_app, !rowNotes_length. simpl. lia.
  - unfold drumsToNotes. simpl. rewrite app_nil_r, !map_app.
    assert (Hdis : forall r r' cells cells' x,
               r <> r' ->
               In x (map (fun n => (Note.pitch n, Note.step n)) (rowNotes r 0 cells)) ->
               ~ In x (map (fun n => (Note.pitch n, Note.step n)) (rowNotes r' 0 cells'))).
    { intros r r' cells cells' x Hne Hin Hin'.
      apply in_map_iff in Hin. destruct Hin as [n [<- Hn]].
      apply in_map_iff in Hin'. destruct Hin' as [n' [Heq Hn']].
      apply rowNotes_pitch in Hn, Hn'. injection Heq as Hp _.
      apply Hne, DrumRow_id_inj. congruence. }
    repeat apply NoDup_app_disjoint; try apply rowNotes_cells_NoDup;
      intros x Hx; rewrite ?in_app_iff; intros Hx';
      repeat match goal with H : _ \/ _ |- _ => destruct H end;
      match goal with
      | H1 : In x _, H2 : In x _ |- _ => revert H2; eapply Hdis; [| exact H1]; discriminate
      end.
Qed.

Lemma gridRow_setGridRow (g : DrumGrid) (r r' : DrumRow) (cells : list bool) :
  gridRow (setGridRow g r cells) r'
  = if String.eqb (DrumRow_id r) (DrumRow_id r') then cells else gridRow g r'.
Proof. destruct r, r'; reflexivity. Qed.

Lemma setCell_nth_error (cells : list bool) (k step : Z) (value : bool) (i : nat) :
  nth_error (setCell cells k step value) i
  = option_map (fun val => if k + Z.of_nat i =? step then value else val)
               (nth_error cells i).
Proof.
  revert k i. induction cells as [| c cells IH]; intros k i.
  - destruct i; reflexivity.
  - destruct i as [| i]; simpl.
    + now rewrite Z.add_0_r.
    + rewrite IH. replace (k + 1 + Z.of_nat i) with (k + Z.pos (Pos.of_succ_nat i)) by lia.
      reflexivity.
Qed.

Lemma drumConflict_none_iff (p : Peer) :
  draftInstrument p = drums ->
  drumConflict p = None
  <-> forall n, In n (drumsToNotes (drumsDraft p)) -> ~ In (Note.pitch n) (usedDrumSounds p).
Proof.
  intros Hinst. split.
  - intros Hnone n Hn. exact (drumConflict_none p n Hinst Hnone Hn).
  - intros Hfree. unfold drumConflict. rewrite Hinst.
    destruct (filter _ _) as [| c cs] eqn:E; [reflexivity |].
    exfalso.
    assert (Hc : In c (filter (fun s => includes s (usedDrumSounds p))
                         (fold_left setAdd (map Note.pitch (drumsToNotes (drumsDraft p))) [])))
      by (rewrite E; now left).
    apply filter_In in Hc. destruct Hc as [Hdraft Hused].
    apply fold_setAdd_In in Hdraft. destruct Hdraft as [[] | Hdraft].
    apply in_map_iff in Hdraft. destruct Hdraft as [n [<- Hn]].
    apply includes_In in Hused. exact (Hfree n Hn Hused).
Qed.

(** X15: editing the drum grid never introduces a conflict.  If the drum
    draft uses no sound of a committed drum loop, it still uses none after
    any [onSet] call: a row whose sound is taken cannot be edited. *)
Theorem onSetDrum_keeps_draft_conflict_free :
  forall (row : DrumRow) (step : Z) (value : bool) (p : Peer),
    draftInstrument p = drums ->
    drumConflict p = None ->
    drumConflict (onSetDrum row step value p) = None
    /\ sessionState (onSetDrum row step value p) = sessionState p
    /\ published (onSetDrum row step value p) = published p.
Proof.
  intros row step value p Hinst Hnone.
  unfold onSetDrum.
  destruct (negb (isMyTurn p)); [auto |].
  destruct (includes (DrumRow_id row) (usedDrumSounds p)) eqn:Eused; [auto |].
  split; [| split; reflexivity].
  apply drumConflict_none_iff; [exact Hinst |].
  change (usedDrumSounds (withDrafts p _ _ _ _)) with (usedDrumSounds p).
  cbn [drumsDraft withDrafts].
  intros n Hn. apply drumsToNotes_In in Hn. destruct Hn as [r [i [Hi ->]]].
  rewrite gridRow_setGridRow in Hi.
  destruct (String.eqb (DrumRow_id row) (DrumRow_id r)) eqn:Erow.
  - apply String.eqb_eq in Erow. cbn [drumNote Note.pitch]. rewrite <- Erow.
    now apply includes_false.
  - apply (proj1 (drumConflict_none_iff p Hinst) Hnone).
    apply drumsToNotes_In. now exists r, i.
Qed.

Lemma onSetDrum_keeps_conflict_free_witness :
  drumConflict (onSetDrum snare 3 true kickComposer) = None
  /\ sessionState (onSetDrum snare 3 true kickComposer) = sessionState kickComposer
  /\ published (onSetDrum snare 3 true kickComposer) = published kickComposer.
Proof.
  apply (onSetDrum_keeps_draft_conflict_free snare 3 true kickComposer); reflexivity.
Defined.

(** X16: when it is the peer's turn and the row's sound is free, [onSet]
    writes the value into the cell at [step] of that row when the row has
    such a cell, and changes no other cell of any row; row lengths stay the
    same, and a step outside the row changes nothing. *)
Theorem onSetDrum_writes_one_cell :
  forall (row : DrumRow) (step : Z) (value : bool) (p : Peer),
    isMyTurn p = true ->
    ~ In (DrumRow_id row) (usedDrumSounds p) ->
    forall (r : DrumRow) (i : nat),
      nth_error (gridRow (drumsDraft (onSetDrum row step value p)) r) i
      = if String.eqb (DrumRow_id row) (DrumRow_id r) && (Z.of_nat i =? step)
        then option_map (fun _ => value) (nth_error (gridRow (drumsDraft p) r) i)
        else nth_error (gridRow (drumsDraft p) r) i.
Proof.
  intros row step value p Hturn Hfree r i.
  apply includes_false in Hfree.
  unfold onSetDrum. rewrite Hturn, Hfree. cbn [negb drumsDraft withDrafts].
  rewrite gridRow_setGridRow.
  destruct (String.eqb (DrumRow_id row) (DrumRow_id r)) eqn:Erow; [| reflexivity].
  apply String.eqb_eq, DrumRow_id_inj in Erow. subst r.
  rewrite setCell_nth_error. cbn [andb]. rewrite Z.add_0_l.
  destruct (Z.of_nat i =? step); destruct (nth_error _ i); reflexivity.
Qed.

Lemma onSetDrum_writes_one_cell_witness :
  nth_error (gridRow (drumsDraft (onSetDrum hat 3 true kickComposer)) hat) 3
  = if String.eqb (DrumRow_id hat) (DrumRow_id hat) && (Z.of_nat 3 =? 3)
    then option_map (fun _ => true) (nth_error (gridRow (drumsDraft kickComposer) hat) 3)
    else nth_error (gridRow (drumsDraft kickComposer) hat) 3.
Proof.
  apply (onSetDrum_writes_one_cell hat 3 true kickComposer).
  - reflexivity.
  - vm_compute. intros [H | []]. discriminate.
Defined.

(** ** Melodic drafts *)

Lemma getDraftNotes_melodic (p : Peer) :
  draftInstrument p <> drums ->
  getDraftNotes p
  = sortBy Note.step (map (clampToScale (currentScaleNotes p)) (currentPianoDraft p)).
Proof.
  unfold getDraftNotes, currentScaleNotes, currentPianoDraft.
  destruct (draftInstrument p); [congruence | reflexivity | reflexivity].
Qed.

Lemma clampToScale_in_scale (scale : list string) (n : Note.t) :
  scale <> [] -> In (Note.pitch (clampToScale scale n)) scale.
Proof.
  intros Hne. unfold clampToScale.
  destruct (includes (Note.pitch n) scale) eqn:E.
  - now apply includes_In.
  - destruct scale; [congruence | now left].
Qed.

(** X18: the notes a melodic draft commits.  With a non-empty scale every
    committed pitch is in the scale; the notes come in ascending step order;
    they are the drafted notes, id by id: a note whose pitch is in the scale
    is kept as drafted, any other keeps its id, step, duration and velocity
    and takes the first pitch of the scale. *)
Theorem getDraftNotes_melodic_in_scale_and_sorted :
  forall p : Peer,
    draftInstrument p <> drums ->
    currentScaleNotes p <> [] ->
    let scale := currentScaleNotes p in
    let notes := getDraftNotes p in
    Forall (fun n => In (Note.pitch n) scale) notes
    /\ StronglySorted (fun a b => Note.step a <= Note.step b) notes
    /\ Permutation (map Note.id notes) (map Note.id (currentPianoDraft p))
    /\ (forall n, In n (currentPianoDraft p) ->
                  In (Note.pitch n) scale -> In n notes)
    /\ (forall n, In n (currentPianoDraft p) ->
                  ~ In (Note.pitch n) scale ->
                  In (Note.mk (Note.id n) (hd EmptyString scale) (Note.step n)
                              (Note.duration n) (Note.velocity n)) notes).
Proof.
  intros p Hinst Hscale scale notes.
  subst notes. rewrite (getDraftNotes_melodic p Hinst). fold scale.
  pose proof (sortBy_perm Note.step (map (clampToScale scale) (currentPianoDraft p))) as Hperm.
  split; [| split; [| split; [| split]]].
  - eapply Permutation_Forall; [symmetry; exact Hperm |].
    apply Forall_forall. intros n Hn. apply in_map_iff in Hn.
    destruct Hn as [m [<- _]]. now apply clampToScale_in_scale.
  - apply sortBy_sorted.
  - rewrite Hperm, map_map.
    assert (Hids : map (fun x => Note.id (clampToScale scale x)) (currentPianoDraft p)
                   = map Note.id (currentPianoDraft p)).
    { apply map_ext. intros n. unfold clampToScale.
      now destruct (includes (Note.pitch n) scale). }
    now rewrite Hids.
  - intros n Hn Hin. apply (Permutation_in n (Permutation_sym Hperm)).
    apply in_map_iff. exists n. split; [| exact Hn].
    unfold clampToScale. apply includes_In in Hin. now rewrite Hin.
  - intros n Hn Hout. apply (Permutation_in _ (Permutation_sym Hperm)).
    apply in_map_iff. exists n. split; [| exact Hn].
    unfold clampToScale. apply includes_false in Hout. now rewrite Hout.
Qed.

Lemma getDraftNotes_melodic_witness :
  let p := offScaleEditor in
  let scale := currentScaleNotes p in
  let notes := getDraftNotes p in
  Forall (fun n => In (Note.pitch n) scale) notes
  /\ StronglySorted (fun a b => Note.step a <= Note.step b) notes
  /\ Permutation (map Note.id notes) (map Note.id (currentPianoDraft p))
  /\ (forall n, In n (currentPianoDraft p) ->
                In (Note.pitch n) scale -> In n notes)
  /\ (forall n, In n (currentPianoDraft p) ->
                ~ In (Note.pitch n) scale ->
                In (Note.mk (Note.id n) (hd EmptyString scale) (Note.step n)
                            (Note.duration n) (Note.velocity n)) notes).
Proof.
  apply (getDraftNotes_melodic_in_scale_and_sorted offScaleEditor); discriminate.
Defined.

(** The off-scale F#4 on step 6 is committed as C4, after the E4 of step 2. *)
Example getDraftNotes_remaps_and_orders :
  map (fun n => (Note.id n, Note.pitch n, Note.step n)) (getDraftNotes offScaleEditor)
  = [("n2", "E4", 2); ("n1", "C4", 6)].
Proof. reflexivity. Qed.

Lemma cellOn_findCell (pitch : string) (step : Z) (current : list Note.t) :
  cellOn pitch step current = match findCell pitch step current with
                              | Some _ => true
                              | None => false
                              end.
Proof.
  unfold cellOn, findCell. induction current as [| n current IH]; simpl; [reflexivity |].
  destruct (String.eqb (Note.pitch n) pitch && (Note.step n =? step)); simpl; auto.
Qed.

Lemma cellOn_true_iff (pitch : string) (step : Z) (notes : list Note.t) :
  cellOn pitch step notes = true
  <-> In (pitch, step) (map (fun n => (Note.pitch n, Note.step n)) notes).
Proof.
  unfold cellOn. rewrite existsb_exists, in_map_iff. split.
  - intros [n [Hn Hb]]. apply andb_true_iff in Hb. destruct Hb as [Hp Hs].
    apply String.eqb_eq in Hp. apply Z.eqb_eq in Hs. exists n. split; congruence.
  - intros [n [Heq Hn]]. injection Heq as Hp Hs. exists n. split; [exact Hn |].
    apply andb_true_iff. split; [now apply String.eqb_eq | now apply Z.eqb_eq].
Qed.

Lemma NoDup_map_filter {A B : Type} (f : A -> B) (g : A -> bool) (l : list A) :
  NoDup (map f l) -> NoDup (map f (filter g l)).
Proof.
  induction l as [| x l IH]; simpl; intros Hnd; [constructor |].
  inversion Hnd as [| ? ? Hnotin Hnd']; subst.
  destruct (g x); simpl; [| now apply IH].
  constructor; [| now apply IH].
  intros Hin. apply Hnotin. apply in_map_iff in Hin. destruct Hin as [y [Hy Hin]].
  apply filter_In in Hin. apply in_map_iff. exists y. tauto.
Qed.

Lemma setPianoCell_spec (pitch : string) (step : Z) (value : bool) (freshId : string)
    (current : list Note.t) :
  cellsUnique current ->
  cellsUnique (setPianoCell pitch step value freshId current)
  /\ cellOn pitch step (setPianoCell pitch step value freshId current) = value.
Proof.
  intros Huniq. unfold setPianoCell.
  pose proof (cellOn_findCell pitch step current) as Hon.
  destruct (findCell pitch step current) as [existing |] eqn:Efind, value.
  - split; assumption.
  - split; [now apply NoDup_map_filter |].
    destruct (cellOn pitch step (filter _ current)) eqn:Eon; [| reflexivity].
    exfalso. unfold cellOn in Eon. apply existsb_exists in Eon.
    destruct Eon as [n [Hn Hb]]. apply filter_In in Hn. destruct Hn as [Hn Hid].
    apply andb_true_iff in Hb. destruct Hb as [Hp Hs].
    apply String.eqb_eq in Hp. apply Z.eqb_eq in Hs.
    unfold findCell in Efind. apply find_some in Efind. destruct Efind as [He Hbe].
    apply andb_true_iff in Hbe. destruct Hbe as [Hpe Hse].
    apply String.eqb_eq in Hpe. apply Z.eqb_eq in Hse.
    assert (Hsame : n = existing).
    { apply (NoDup_map_In_inj (fun n => (Note.pitch n, Note.step n)) current); auto.
      congruence. }
    subst n. rewrite String.eqb_refl in Hid. discriminate.
  - split.
    + unfold cellsUnique. rewrite map_app. apply NoDup_app_disjoint; auto.
      * simpl. constructor; [intros [] | constructor].
      * simpl. intros x Hx [<- | []]. apply cellOn_true_iff in Hx. congruence.
    + unfold cellOn. rewrite existsb_app. simpl.
      rewrite String.eqb_refl, Z.eqb_refl. simpl. apply orb_true_r.
  - split; assumption.
Qed.

(** X19: editing the piano roll.  On the holder's melodic draft, [onSet]
    leaves the cell in the requested state (on after [true], off after
    [false]) and keeps the draft free of two notes on one cell; the session
    state is not touched. *)
Theorem onSetPiano_sets_cell_and_keeps_cells_unique :
  forall (pitch : string) (step : Z) (value : bool) (freshId : string) (p : Peer),
    isMyTurn p = true ->
    draftInstrument p <> drums ->
    cellsUnique (currentPianoDraft p) ->
    let p' := onSetPiano pitch step value freshId p in
    cellsUnique (currentPianoDraft p')
    /\ cellOn pitch step (currentPianoDraft p') = value
    /\ sessionState p' = sessionState p
    /\ published p' = published p.
Proof.
  intros pitch step value freshId p Hturn Hinst Huniq p'.
  subst p'. unfold onSetPiano. rewrite Hturn. cbn [negb].
  unfold currentPianoDraft in *.
  destruct (draftInstrument p) eqn:E; [congruence | |];
    cbn [draftInstrument withDrafts keysDraft bassDraft sessionState published];
    rewrite E;
    destruct (setPianoCell_spec pitch step value freshId _ Huniq) as [H1 H2];
    auto.
Qed.

Lemma onSetPiano_witness :
  let p' := onSetPiano "E4" 2 false "fresh1" keysEditor in
  cellsUnique (currentPianoDraft p')
  /\ cellOn "E4" 2 (currentPianoDraft p') = false
  /\ sessionState p' = sessionState keysEditor
  /\ published p' = published keysEditor.
Proof.
  apply (onSetPiano_sets_cell_and_keeps_cells_unique "E4" 2 false "fresh1" keysEditor).
  - reflexivity.
  - discriminate.
  - unfold cellsUnique. simpl. constructor; [intros [] | constructor].
Defined.

(** ** The set of used drum sounds *)

Lemma setAdd_NoDup (s : list string) (x : string) : NoDup s -> NoDup (setAdd s x).
Proof.
  intros Hnd. unfold setAdd. destruct (includes x s) eqn:E; [exact Hnd |].
  apply includes_false in E. apply NoDup_app_disjoint; auto.
  - constructor; [intros [] | constructor].
  - intros y Hy [<- | []]. contradiction.
Qed.

Lemma fold_setAdd_NoDup (l s : list string) : NoDup s -> NoDup (fold_left setAdd l s).
Proof.
  revert s. induction l as [| x l IH]; intros s Hnd; simpl; [exact Hnd |].
  apply IH. now apply setAdd_NoDup.
Qed.

(** X17: [usedDrumSounds] lists each pitch found in a committed drum loop
    once, and [drumConflict] of a drum draft is [null] exactly when the draft
    shares no pitch with it; otherwise it lists, once each and never as an
    empty list, the pitches that are both drafted and used. *)
Theorem drumConflict_lists_shared_sounds :
  forall p : Peer,
    draftInstrument p = drums ->
    NoDup (usedDrumSounds p)
    /\ (forall v, In v (usedDrumSounds p)
                  <-> exists l, In l (SessionState.loops (sessionState p))
                                /\ Loop.instrument l = drums /\ hasPitch v l = true)
    /\ (drumConflict p = None
        <-> forall n, In n (drumsToNotes (drumsDraft p)) ->
                      ~ In (Note.pitch n) (usedDrumSounds p))
    /\ forall conflicts,
         drumConflict p = Some conflicts ->
         conflicts <> [] /\ NoDup conflicts
         /\ forall s, In s conflicts
                      <-> In s (map Note.pitch (drumsToNotes (drumsDraft p)))
                          /\ In s (usedDrumSounds p).
Proof.
  intros p Hinst. split; [| split; [| split]].
  - unfold usedDrumSounds.
    generalize (filter isDrumLoop (SessionState.loops (sessionState p))).
    intros ls. assert (Hnil : NoDup (@nil string)) by constructor.
    revert Hnil. generalize (@nil string).
    induction ls as [| l ls IH]; intros s Hs; simpl; [exact Hs |].
    apply IH. rewrite fold_notes_setAdd. now apply fold_setAdd_NoDup.
  - intros v. rewrite usedDrumSounds_In. split; intros [l [Hl [Hd Hp]]]; exists l;
      repeat split; auto; unfold isDrumLoop in *.
    + now destruct (Instrument_eqb_spec (Loop.instrument l) drums).
    + rewrite Hd. reflexivity.
  - now apply drumConflict_none_iff.
  - intros conflicts Hsome. unfold drumConflict in Hsome. rewrite Hinst in Hsome.
    destruct (filter _ _) as [| c cs] eqn:E; [discriminate |].
    injection Hsome as <-. split; [discriminate |]. rewrite <- E. split.
    + apply NoDup_filter, fold_setAdd_NoDup. constructor.
    + intros s. rewrite filter_In, fold_setAdd_In, includes_In. simpl. tauto.
Qed.

Lemma drumConflict_lists_shared_sounds_witness :
  drumConflict kickAgainComposer = Some ["kick"]
  /\ NoDup (usedDrumSounds kickAgainComposer).
Proof.
  split; [reflexivity |].
  exact (proj1 (drumConflict_lists_shared_sounds kickAgainComposer eq_refl)).
Defined.

(** ** Commits *)

Lemma getDraftNotes_clearDraft (p : Peer) : getDraftNotes (clearDraft p) = [].
Proof.
  unfold clearDraft, getDraftNotes.
  destruct (draftInstrument p) eqn:E; cbn [draftInstrument withDrafts]; rewrite E; reflexivity.
Qed.

(** A commit is refused for every clock reading and id, or it ends by
    clearing the draft. *)
Lemma commitDraft_outcome (w : Z -> Z -> Z) (now : Z) (freshId : string) (ack : bool) (p : Peer) :
  (forall now' freshId' ack', commitDraft w now' freshId' ack' p = p)
  \/ exists q, commitDraft w now freshId ack p = clearDraft q.
Proof.
  at_fresh_render p.
  destruct (negb (isMyTurn p)); [now left |].
  destruct (getDraftNotes p) as [| n notes]; [now left |].
  destruct (draftInstrument p) eqn:Hinst, (drumConflict p) eqn:Hconf;
    try (now left); right; eexists; reflexivity.
Qed.

(** X21: committing twice commits once.  A second [commitDraft] right after
    the first, whether the first went through or was refused, returns the
    peer unchanged: an accepted commit clears the draft, and an empty draft
    is never committed. *)
Theorem commitDraft_twice_commits_once :
  forall (w : Z -> Z -> Z) (now now' : Z) (freshId freshId' : string) (ack ack' : bool)
         (p : Peer),
    commitDraft w now' freshId' ack' (commitDraft w now freshId ack p)
    = commitDraft w now freshId ack p.
Proof.
  intros w now now' freshId freshId' ack ack' p.
  destruct (commitDraft_outcome w now freshId ack p) as [Hrefused | [q Hq]].
  - now rewrite !Hrefused.
  - rewrite Hq. unfold commitDraft, commitDraftAt. cbv zeta.
    rewrite getDraftNotes_clearDraft.
    now destruct (negb (isMyTurn _)).
Qed.

Lemma commitDraft_capacity_with_valid_target_witness :
  withinCapacity
    (SessionState.loops
       (sessionState (commitDraft sampleWindowMs 6000 "f1" true defaultTargetComposer))).
Proof.
  apply (commitDraft_capacity_with_valid_target sampleWindowMs 6000 "f1" true
           defaultTargetComposer).
  - intros inst. destruct inst; vm_compute; discriminate.
  - left. reflexivity.
Defined.

Lemma replaceTarget_clearDraft (p : Peer) : replaceTarget (clearDraft p) = replaceTarget p.
Proof. unfold clearDraft. now destruct (draftInstrument p). Qed.

(** The state of a commit that went through. *)
Lemma commitDraft_published_state
    (w : Z -> Z -> Z) (now : Z) (freshId : string) (ack : bool) (p : Peer)
    (next : SessionState.t) :
  published (commitDraft w now freshId ack p) = next :: published p ->
  sessionState (commitDraft w now freshId ack p) = next
  /\ next = SessionState.mk (SessionState.bpm (sessionState p))
              (keepLoops p ++ [draftLoop now freshId p])
              (option_map (fun member => turnFor w p member now) (turnAfterCommit p))
              now (SessionState.creatorId (sessionState p))
              (SessionState.windowCycles (sessionState p))
              (SessionState.playbackStartedAt (sessionState p))
  /\ replaceTarget (commitDraft w now freshId ack p) = None.
Proof.
  unfold draftLoop, turnAfterCommit. at_fresh_render p.
  destruct (negb (isMyTurn p)); [intros H; now apply cons_neq_self in H |].
  destruct (getDraftNotes p) as [| n notes]; [intros H; now apply cons_neq_self in H |].
  destruct (draftInstrument p) eqn:Hinst, (drumConflict p) eqn:Hconf;
    try (intros H; now apply cons_neq_self in H);
    rewrite clearDraft_published, clearDraft_sessionState;
    unfold setReplaceTarget; cbn [published sessionState withDrafts];
    rewrite publishState_published, publishState_sessionState;
    (destruct (channelRef p); [| intros H; now apply cons_neq_self in H]);
    intros H; injection H as <-;
    (split; [reflexivity |]); (split;
      [destruct (map Participant.id (queue p)); reflexivity |]);
    now rewrite replaceTarget_clearDraft.
Qed.

(** X23: below capacity a commit keeps the loops of the other instruments
    only.  After an accepted commit on an instrument that has fewer loops
    than its limit, the committed loops are the previous loops of the other
    instruments, in their order, followed by the new loop: the instrument
    holds the new loop and no other. *)
Theorem commitDraft_below_capacity_replaces_instrument_loops :
  forall (w : Z -> Z -> Z) (now : Z) (freshId : string) (ack : bool) (p : Peer)
         (next : SessionState.t),
    published (commitDraft w now freshId ack p) = next :: published p ->
    countInstrument (draftInstrument p) (SessionState.loops (sessionState p))
    < loopLimit (draftInstrument p) ->
    SessionState.loops next
    = filter (fun l => negb (Instrument_eqb (Loop.instrument l) (draftInstrument p)))
             (SessionState.loops (sessionState p))
      ++ [draftLoop now freshId p]
    /\ countInstrument (draftInstrument p) (SessionState.loops next) = 1.
Proof.
  intros w now freshId ack p next Hpub Hbelow.
  destruct (commitDraft_published_state w now freshId ack p next Hpub) as [_ [-> _]].
  cbn [SessionState.loops].
  assert (Hkeep : keepLoops p
                  = filter (fun l => negb (Instrument_eqb (Loop.instrument l) (draftInstrument p)))
                           (SessionState.loops (sessionState p))).
  { unfold keepLoops. unfold countInstrument in Hbelow.
    destruct (Z.of_nat _ >=? loopLimit (draftInstrument p)) eqn:E; [| reflexivity].
    apply Z.geb_le in E. lia. }
  rewrite Hkeep. split; [reflexivity |].
  rewrite countInstrument_app, countInstrument_without_instrument.
  unfold countInstrument, draftLoop. simpl.
  now destruct (Instrument_eqb_spec (draftInstrument p) (draftInstrument p)).
Qed.

Lemma commitDraft_below_capacity_witness :
  let next := sessionState (commitDraft sampleWindowMs 6000 "f1" true kickComposer) in
  SessionState.loops next
  = filter (fun l => negb (Instrument_eqb (Loop.instrument l) (draftInstrument kickComposer)))
           (SessionState.loops (sessionState kickComposer))
    ++ [draftLoop 6000 "f1" kickComposer]
  /\ countInstrument (draftInstrument kickComposer) (SessionState.loops next) = 1.
Proof.
  apply (commitDraft_below_capacity_replaces_instrument_loops sampleWindowMs 6000 "f1" true
           kickComposer).
  - reflexivity.
  - vm_compute. reflexivity.
Defined.

(** X25: an accepted commit ends the committer's turn.  The published state
    carries the new loop last, signed with the committer's identity and
    stamped with the commit time, and gives the turn to the committer's
    successor in the queue (wrapping around), from the commit time for one
    composition window; the replacement choice is reset. *)
Theorem commitDraft_passes_turn_to_successor :
  forall (w : Z -> Z -> Z) (now : Z) (freshId : string) (ack : bool) (p : Peer)
         (next : SessionState.t) (i : nat),
    published (commitDraft w now freshId ack p) = next :: published p ->
    NoDup (map Participant.id (queue p)) ->
    nth_error (map Participant.id (queue p)) i = Some (Identity.id (identity p)) ->
    exists successor newLoop,
      nth_error (map Participant.id (queue p))
                ((i + 1) mod List.length (map Participant.id (queue p))) = Some successor
      /\ SessionState.activeTurn next
         = Some (Turn.mk successor now (now + compositionWindowMs w p))
      /\ SessionState.version next = now
      /\ last (SessionState.loops next) newLoop = newLoop
      /\ In newLoop (SessionState.loops next)
      /\ Loop.id newLoop = freshId
      /\ Loop.userId newLoop = Identity.id (identity p)
      /\ Loop.notes newLoop = getDraftNotes p
      /\ Loop.createdAt newLoop = now
      /\ replaceTarget (commitDraft w now freshId ack p) = None.
Proof.
  intros w now freshId ack p next i Hpub Hnd Hnth.
  destruct (commitDraft_published_state w now freshId ack p next Hpub) as [_ [-> Htarget]].
  eexists. exists (draftLoop now freshId p).
  split; [exact (rotation_target _ i _ Hnd Hnth) |].
  cbn [SessionState.activeTurn SessionState.version SessionState.loops].
  split.
  { unfold turnAfterCommit.
    destruct (map Participant.id (queue p)) as [| q0 rest]; [destruct i; discriminate |].
    reflexivity. }
  split; [reflexivity |]. split; [apply last_last |].
  split; [apply in_or_app; right; now left |].
  repeat split; auto.
Qed.

Lemma commitDraft_passes_turn_witness :
  exists successor newLoop,
    nth_error (map Participant.id (queue kickComposer))
              ((0 + 1) mod List.length (map Participant.id (queue kickComposer)))
    = Some successor
    /\ SessionState.activeTurn
         (sessionState (commitDraft sampleWindowMs 6000 "f1" true kickComposer))
       = Some (Turn.mk successor 6000 (6000 + compositionWindowMs sampleWindowMs kickComposer))
    /\ SessionState.version
         (sessionState (commitDraft sampleWindowMs 6000 "f1" true kickComposer)) = 6000
    /\ last (SessionState.loops
               (sessionState (commitDraft sampleWindowMs 6000 "f1" true kickComposer)))
            newLoop = newLoop
    /\ In newLoop
          (SessionState.loops
             (sessionState (commitDraft sampleWindowMs 6000 "f1" true kickComposer)))
    /\ Loop.id newLoop = "f1"
    /\ Loop.userId newLoop = Identity.id (identity kickComposer)
    /\ Loop.notes newLoop = getDraftNotes kickComposer
    /\ Loop.createdAt newLoop = 6000
    /\ replaceTarget (commitDraft sampleWindowMs 6000 "f1" true kickComposer) = None.
Proof.
  apply (commitDraft_passes_turn_to_successor sampleWindowMs 6000 "f1" true kickComposer
           (sessionState (commitDraft sampleWindowMs 6000 "f1" true kickComposer)) 0).
  - reflexivity.
  - simpl. repeat constructor; simpl; intuition discriminate.
  - reflexivity.
Defined.

Lemma countInstrument_single (inst : Instrument) (l : Loop.t) :
  countInstrument inst [l] = if Instrument_eqb (Loop.instrument l) inst then 1 else 0.
Proof.
  unfold countInstrument. simpl. now destruct (Instrument_eqb (Loop.instrument l) inst).
Qed.

Lemma filter_head_split {A : Type} (f : A -> bool) (l : list A) (e : A) (rest : list A) :
  filter f l = e :: rest ->
  exists l1 l2, l = l1 ++ e :: l2 /\ Forall (fun x => f x = false) l1 /\ f e = true.
Proof.
  induction l as [| x l IH]; simpl; [discriminate |].
  destruct (f x) eqn:E.
  - intros H. injection H as -> _. exists [], l. repeat split; auto.
  - intros H. destruct (IH H) as [l1 [l2 [-> [Hall He]]]].
    exists (x :: l1), l2. repeat split; auto.
Qed.

Lemma filter_out_unique_id (l1 l2 : list Loop.t) (e : Loop.t) :
  NoDup (map Loop.id (l1 ++ e :: l2)) ->
  filter (fun l => negb (String.eqb (Loop.id l) (Loop.id e))) (l1 ++ e :: l2) = l1 ++ l2.
Proof.
  intros Hnd. rewrite filter_app. simpl. rewrite String.eqb_refl. simpl.
  assert (Hother : forall x, In x l1 \/ In x l2 -> String.eqb (Loop.id x) (Loop.id e) = false).
  { intros x Hx. apply String.eqb_neq. intros Heq.
    rewrite map_app in Hnd. simpl in Hnd. apply NoDup_remove_2 in Hnd.
    apply Hnd. rewrite <- Heq, in_app_iff. destruct Hx; [left | right]; now apply in_map. }
  f_equal; apply forallb_filter_id.
  - apply forallb_forall. intros x Hx. now rewrite Hother by auto.
  - apply forallb_forall. intros x Hx. now rewrite Hother by auto.
Qed.

(** X24: at capacity and with no replacement choice, an accepted commit
    replaces the first loop of the instrument in array order and nothing
    else: every other loop stays, in order, and the new loop comes last
    (loop ids being distinct). *)
Theorem commitDraft_default_replaces_first_loop_of_instrument :
  forall (w : Z -> Z -> Z) (now : Z) (freshId : string) (ack : bool) (p : Peer)
         (next : SessionState.t),
    published (commitDraft w now freshId ack p) = next :: published p ->
    replaceTarget p = None ->
    NoDup (map Loop.id (SessionState.loops (sessionState p))) ->
    countInstrument (draftInstrument p) (SessionState.loops (sessionState p))
    >= loopLimit (draftInstrument p) ->
    exists (before after : list Loop.t) (first : Loop.t),
      SessionState.loops (sessionState p) = before ++ first :: after
      /\ Loop.instrument first = draftInstrument p
      /\ Forall (fun l => Loop.instrument l <> draftInstrument p) before
      /\ SessionState.loops next = before ++ after ++ [draftLoop now freshId p]
      /\ countInstrument (draftInstrument p) (SessionState.loops next)
         = countInstrument (draftInstrument p) (SessionState.loops (sessionState p)).
Proof.
  intros w now freshId ack p next Hpub Htarget Hnd Hfull.
  destruct (commitDraft_published_state w now freshId ack p next Hpub) as [_ [-> _]].
  cbn [SessionState.loops].
  set (all := SessionState.loops (sessionState p)) in *.
  set (inst := draftInstrument p) in *.
  destruct (filter (fun l => Instrument_eqb (Loop.instrument l) inst) all)
    as [| first rest] eqn:Eex.
  { exfalso. unfold countInstrument in Hfull. rewrite Eex in Hfull. simpl in Hfull.
    destruct inst; vm_compute in Hfull; now apply Hfull. }
  destruct (filter_head_split _ all first rest Eex) as [before [after [Hall [Hbefore Hfirst]]]].
  exists before, after, first.
  assert (Hkeep : keepLoops p = before ++ after).
  { unfold keepLoops. fold all inst. rewrite Eex.
    unfold countInstrument in Hfull. rewrite Eex in Hfull.
    assert (E : (Z.of_nat (List.length (first :: rest)) >=? loopLimit inst) = true)
      by (apply Z.geb_le; lia).
    rewrite E, Htarget, Hall. apply filter_out_unique_id. now rewrite <- Hall. }
  rewrite Hkeep, <- app_assoc.
  split; [exact Hall |]. split.
  { now destruct (Instrument_eqb_spec (Loop.instrument first) inst). }
  split.
  { eapply Forall_impl; [| exact Hbefore]. intros l Hl Heq. simpl in Hl.
    rewrite Heq in Hl. now destruct (Instrument_eqb_spec inst inst). }
  split; [reflexivity |].
  rewrite Hall. change (first :: after) with ([first] ++ after).
  rewrite !countInstrument_app, !countInstrument_single.
  cbn [draftLoop Loop.instrument]. fold inst. rewrite Hfirst.
  destruct (Instrument_eqb_spec inst inst); [lia | congruence].
Qed.

Lemma commitDraft_default_replaces_first_witness :
  exists (before after : list Loop.t) (first : Loop.t),
    SessionState.loops (sessionState defaultTargetComposer) = before ++ first :: after
    /\ Loop.instrument first = draftInstrument defaultTargetComposer
    /\ Forall (fun l => Loop.instrument l <> draftInstrument defaultTargetComposer) before
    /\ SessionState.loops
         (sessionState (commitDraft sampleWindowMs 6000 "f1" true defaultTargetComposer))
       = before ++ after ++ [draftLoop 6000 "f1" defaultTargetComposer]
    /\ countInstrument (draftInstrument defaultTargetComposer)
         (SessionState.loops
            (sessionState (commitDraft sampleWindowMs 6000 "f1" true defaultTargetComposer)))
       = countInstrument (draftInstrument defaultTargetComposer)
           (SessionState.loops (sessionState defaultTargetComposer)).
Proof.
  apply (commitDraft_default_replaces_first_loop_of_instrument sampleWindowMs 6000 "f1" true
           defaultTargetComposer
           (sessionState (commitDraft sampleWindowMs 6000 "f1" true defaultTargetComposer))).
  - reflexivity.
  - reflexivity.
  - simpl. repeat constructor; simpl; intuition discriminate.
  - vm_compute. discriminate.
Defined.

(** ** Note names *)

(** The decimal print of a non-negative octave: a non-empty string of
    digits that reads back as the octave. *)
Lemma octave_string_reads_back (z : Z) :
  0 <= z ->
  exists (c : Ascii.ascii) (s : string) (d : Decimal.uint),
    NilZero.string_of_int (Z.to_int z) = String c s
    /\ Ascii.eqb c "#"%char = false
    /\ NilEmpty.uint_of_string (String c s) = Some d
    /\ Z.of_uint d = z.
Proof.
  intros Hz. destruct z as [| p | p]; [| | lia].
  - exists "0"%char, EmptyString, (Decimal.D0 Decimal.Nil). repeat split.
  - pose proof (DecimalPos.Unsigned.to_uint_nonnil p) as Hnil.
    pose proof (DecimalPos.Unsigned.of_to p) as Hback.
    pose proof (NilEmpty.usu (Pos.to_uint p)) as Hread.
    cbn [Z.to_int NilZero.string_of_int].
    destruct (Pos.to_uint p) as [| d | d | d | d | d | d | d | d | d | d] eqn:E;
      [congruence | | | | | | | | | |];
      cbn [NilZero.string_of_uint NilEmpty.string_of_uint] in *;
      eexists; eexists; eexists; (split; [reflexivity |]); (split; [reflexivity |]);
      (split; [exact Hread |]); unfold Z.of_uint; now rewrite Hback.
Qed.

Lemma noteNameToMidi_of_root_and_octave (r z : Z) :
  0 <= r < 12 -> 0 <= z ->
  noteNameToMidi (String.append (rootNoteAt r) (NilZero.string_of_int (Z.to_int z)))
  = (z + 1) * 12 + r.
Proof.
  intros Hr Hz.
  destruct (octave_string_reads_back z Hz) as [c [s [d [-> [Hc [Hread Hd]]]]]].
  assert (Hcases : r = 0 \/ r = 1 \/ r = 2 \/ r = 3 \/ r = 4 \/ r = 5 \/ r = 6
                   \/ r = 7 \/ r = 8 \/ r = 9 \/ r = 10 \/ r = 11) by lia.
  repeat (destruct Hcases as [-> | Hcases]); [.. | subst r];
    match goal with
    | |- context [rootNoteAt ?k] =>
        let v := eval vm_compute in (rootNoteAt k) in change (rootNoteAt k) with v
    end;
    cbn [String.append]; unfold noteNameToMidi;
    match goal with
    | |- context [isNoteLetter ?x] => change (isNoteLetter x) with true
    end;
    cbv iota;
    try change (Ascii.eqb "#"%char "#"%char) with true;
    rewrite ?Hc; cbv iota beta;
    rewrite Hread, Hd; reflexivity.
Qed.

(** X26: a note name printed by [midiToNoteName] reads back with
    [noteNameToMidi] as the MIDI number it came from, for every MIDI number
    from 12 (C0) up to the largest integer a JavaScript number holds
    exactly. *)
Theorem noteNameToMidi_midiToNoteName :
  forall m : Z,
    12 <= m <= 9007199254740991 ->
    noteNameToMidi (midiToNoteName m) = m.
Proof.
  intros m [Hm _]. unfold midiToNoteName.
  assert (Hrem : Z.rem m 12 = m mod 12) by (apply Z.rem_mod_nonneg; lia).
  pose proof (Z.mod_pos_bound m 12 ltac:(lia)) as Hbound.
  pose proof (Z.div_mod m 12 ltac:(lia)) as Hdiv.
  assert (Hq : 1 <= m / 12) by (apply Z.div_le_lower_bound; lia).
  rewrite Hrem, noteNameToMidi_of_root_and_octave by lia.
  lia.
Qed.

Lemma noteNameToMidi_midiToNoteName_witness :
  noteNameToMidi (midiToNoteName 61) = 61.
Proof. apply (noteNameToMidi_midiToNoteName 61). lia. Defined.

(** Names the pattern does not match read as 60. *)
Example noteNameToMidi_examples :
  midiToNoteName 60 = "C4" /\ midiToNoteName 61 = "C#4" /\ midiToNoteName 108 = "C8"
  /\ noteNameToMidi "A#2" = 46 /\ noteNameToMidi "H4" = 60
  /\ noteNameToMidi "C" = 60 /\ noteNameToMidi "C-1" = 60 /\ noteNameToMidi "C4b" = 60.
Proof. repeat split; reflexivity. Qed.

(** ** Scales *)

Lemma findScale_In (scaleType : string) : In (findScale scaleType) SCALE_TYPES.
Proof.
  unfold findScale.
  destruct (find _ SCALE_TYPES) as [sc |] eqn:E.
  - now apply find_some in E.
  - now left.
Qed.

Lemma indexOf_ROOT_NOTES (rootNote : string) :
  In rootNote ROOT_NOTES -> 0 <= indexOf rootNote ROOT_NOTES < 12.
Proof.
  intros H. pose proof (indexOf_upper_bound rootNote ROOT_NOTES) as Hup.
  pose proof (indexOf_lower_bound rootNote ROOT_NOTES) as Hlow.
  simpl List.length in Hup.
  destruct (Z.eq_dec (indexOf rootNote ROOT_NOTES) (-1)) as [Habs |]; [| lia].
  exfalso. simpl in H.
  repeat (destruct H as [<- | H]; [vm_compute in Habs; discriminate |]).
  exact H.
Qed.

Lemma noDupb_NoDup (l : list string) : noDupb l = true -> NoDup l.
Proof.
  induction l as [| x l IH]; simpl; [constructor |].
  rewrite andb_true_iff, negb_true_iff. intros [Hx Hl].
  constructor; [now apply includes_false | now apply IH].
Qed.

(** Every scale on every root has at least eight notes in the MIDI range,
    all of different names. *)
Lemma allScaleNotes_enough (scale : ScaleType) (rootIndex : Z) :
  In scale SCALE_TYPES -> 0 <= rootIndex < 12 ->
  (8 <= List.length (sortBy midi (allScaleNotes scale rootIndex)))%nat
  /\ NoDup (map name (sortBy midi (allScaleNotes scale rootIndex))).
Proof.
  intros Hscale Hroot.
  assert (Hcases : rootIndex = 0 \/ rootIndex = 1 \/ rootIndex = 2 \/ rootIndex = 3
                   \/ rootIndex = 4 \/ rootIndex = 5 \/ rootIndex = 6 \/ rootIndex = 7
                   \/ rootIndex = 8 \/ rootIndex = 9 \/ rootIndex = 10 \/ rootIndex = 11)
    by lia.
  simpl in Hscale.
  repeat (destruct Hscale as [<- | Hscale]); [.. | contradiction];
    repeat (destruct Hcases as [-> | Hcases]); try subst rootIndex;
    (split; [vm_compute; lia | apply noDupb_NoDup; vm_compute; reflexivity]).
Qed.

Lemma slice_length {A : Type} (l : list A) (start count : Z) :
  0 <= start -> 0 <= count -> start + count <= Z.of_nat (List.length l) ->
  List.length (slice l start (start + count)) = Z.to_nat count.
Proof.
  intros Hs Hc Hfit. unfold slice.
  rewrite length_firstn, length_skipn. lia.
Qed.

Lemma slice_NoDup {A : Type} (l : list A) (start stop : Z) :
  NoDup l -> NoDup (slice l start stop).
Proof.
  intros Hnd. unfold slice.
  assert (Hskip : NoDup (skipn (Z.to_nat start) l)).
  { rewrite <- (firstn_skipn (Z.to_nat start) l) in Hnd.
    now apply NoDup_app_remove_l in Hnd. }
  rewrite <- (firstn_skipn (Z.to_nat (stop - start)) (skipn (Z.to_nat start) l)) in Hskip.
  now apply NoDup_app_remove_r in Hskip.
Qed.

(** X27: for every root of [ROOT_NOTES], every scale type (known or not)
    and every base note, [generateScaleFromMidi] with its note count of 8
    returns eight note names, all different; so the piano roll always has
    eight rows and the pitch clamp of a melodic draft always has a first
    scale note to fall back on. *)
Theorem generateScaleFromMidi_eight_distinct_notes :
  forall (baseMidi : Z) (scaleType rootNote : string),
    In rootNote ROOT_NOTES ->
    List.length (generateScaleFromMidi baseMidi scaleType rootNote 8) = 8%nat
    /\ NoDup (generateScaleFromMidi baseMidi scaleType rootNote 8)
    /\ generateScaleFromMidi baseMidi scaleType rootNote 8 <> [].
Proof.
  intros baseMidi scaleType rootNote Hroot.
  pose proof (indexOf_ROOT_NOTES rootNote Hroot) as Hidx.
  destruct (allScaleNotes_enough (findScale scaleType) (indexOf rootNote ROOT_NOTES)
              (findScale_In scaleType) Hidx) as [Hlen Hnd].
  unfold generateScaleFromMidi.
  assert (Hne : (indexOf rootNote ROOT_NOTES =? -1) = false) by (apply Z.eqb_neq; lia).
  rewrite Hne. cbv zeta.
  set (sorted := sortBy midi (allScaleNotes (findScale scaleType) (indexOf rootNote ROOT_NOTES))) in *.
  set (startIdx := Z.max 0 (Z.min _ (Z.of_nat (List.length sorted) - 8))).
  assert (Hlength : List.length (map name (slice sorted startIdx (startIdx + 8))) = 8%nat).
  { rewrite length_map, slice_length; [reflexivity | | |]; unfold startIdx; lia. }
  split; [exact Hlength |]. split.
  - unfold slice. rewrite <- firstn_map, <- skipn_map.
    apply (slice_NoDup (map name sorted) startIdx (startIdx + 8)). exact Hnd.
  - intros Hnil. rewrite Hnil in Hlength. discriminate.
Qed.

Lemma generateScaleFromMidi_witness :
  List.length (generateScaleFromMidi 60 "pentatonic" "F#" 8) = 8%nat
  /\ NoDup (generateScaleFromMidi 60 "pentatonic" "F#" 8)
  /\ generateScaleFromMidi 60 "pentatonic" "F#" 8 <> [].
Proof.
  apply (generateScaleFromMidi_eight_distinct_notes 60 "pentatonic" "F#").
  simpl. tauto.
Defined.

(** The scales the component starts with: C major from C4 for the keys and
    from C2 for the bass; a base above the range yields the top eight
    notes. *)
Example generateScaleFromMidi_examples :
  generateScaleFromMidi 60 "major" "C" 8 = ["C4"; "D4"; "E4"; "F4"; "G4"; "A4"; "B4"; "C5"]
  /\ generateScaleFromMidi 36 "major" "C" 8 = ["C2"; "D2"; "E2"; "F2"; "G2"; "A2"; "B2"; "C3"]
  /\ generateScaleFromMidi 200 "major" "C" 8
     = ["C7"; "D7"; "E7"; "F7"; "G7"; "A7"; "B7"; "C8"]
  /\ generateScaleFromMidi 60 "major" "H" 8 = [].
Proof. repeat split; reflexivity. Qed.

(** ** More on settings and the piano roll *)

Lemma bpmInput_clamps_tempo_witness :
  SessionState.bpm
    (sessionState (bpmInput sampleWindowMs (181 # 2) 7000 7001 true kickComposer))
  = 91
  /\ SessionState.bpm
       (sessionState (bpmInput sampleWindowMs (200 # 1) 7000 7001 true kickComposer))
     = 180.
Proof.
  split.
  - apply (proj1 (proj2 (proj2
             (bpmInput_clamps_tempo_and_floors_turn_end sampleWindowMs (181 # 2) 7000 7001
                true kickComposer)))).
    vm_compute. split; discriminate.
  - apply (proj1 (proj2 (proj2 (proj2 (proj2
             (bpmInput_clamps_tempo_and_floors_turn_end sampleWindowMs (200 # 1) 7000 7001
                true kickComposer)))))).
    vm_compute. reflexivity.
Defined.

Lemma cycleInput_validates_cycles_witness :
  SessionState.windowCycles
    (sessionState (cycleInput sampleWindowMs 3 7000 7001 true kickComposer))
  = 4.
Proof.
  apply (cycleInput_validates_cycles_and_floors_turn_end sampleWindowMs 3 7000 7001 true
           kickComposer).
  simpl. intros [H | [H | [H | []]]]; discriminate.
Defined.

Lemma isMyTurn_withDrafts (p : Peer) (g : DrumGrid) (ks bs : list Note.t) (t : option string) :
  isMyTurn (withDrafts p g ks bs t) = isMyTurn p.
Proof. reflexivity. Qed.

Lemma setPianoCell_add_then_remove (pitch : string) (step : Z) (freshId freshId' : string)
    (current : list Note.t) :
  cellOn pitch step current = false ->
  ~ In freshId (map Note.id current) ->
  setPianoCell pitch step false freshId'
    (setPianoCell pitch step true freshId current)
  = current.
Proof.
  intros Hoff Hfresh.
  pose proof (cellOn_findCell pitch step current) as Hfind. rewrite Hoff in Hfind.
  unfold setPianoCell at 2.
  destruct (findCell pitch step current) eqn:E; [discriminate |].
  unfold setPianoCell.
  assert (Hfound : findCell pitch step (current ++ [Note.mk freshId pitch step 1 (85 # 100)])
                   = Some (Note.mk freshId pitch step 1 (85 # 100))).
  { unfold findCell in *. clear Hfind Hoff Hfresh.
    induction current as [| n current IH]; simpl in *.
    - now rewrite String.eqb_refl, Z.eqb_refl.
    - destruct (String.eqb (Note.pitch n) pitch && (Note.step n =? step)); [discriminate |].
      now apply IH. }
  rewrite Hfound. cbn [Note.id]. rewrite filter_app. simpl.
  rewrite String.eqb_refl. simpl. rewrite app_nil_r.
  apply forallb_filter_id, forallb_forall. intros n Hn.
  apply negb_true_iff, String.eqb_neq. intros Heq.
  apply Hfresh. rewrite <- Heq. now apply in_map.
Qed.

(** X20: drawing a note and erasing it again gives the draft back.  On the
    holder's melodic draft, switching an empty cell on (with an id no
    drafted note has) and then off leaves the draft exactly as it was. *)
Theorem onSetPiano_add_then_remove_restores_draft :
  forall (pitch : string) (step : Z) (freshId freshId' : string) (p : Peer),
    isMyTurn p = true ->
    draftInstrument p <> drums ->
    cellOn pitch step (currentPianoDraft p) = false ->
    ~ In freshId (map Note.id (currentPianoDraft p)) ->
    currentPianoDraft
      (onSetPiano pitch step false freshId' (onSetPiano pitch step true freshId p))
    = currentPianoDraft p
    /\ cellOn pitch step (currentPianoDraft (onSetPiano pitch step true freshId p)) = true.
Proof.
  intros pitch step freshId freshId' p Hturn Hinst Hoff Hfresh.
  unfold onSetPiano at 2 3. rewrite Hturn. cbn [negb].
  unfold currentPianoDraft in *.
  destruct (draftInstrument p) eqn:E; [congruence | |];
    unfold onSetPiano; rewrite isMyTurn_withDrafts, Hturn;
    cbn [negb draftInstrument withDrafts keysDraft bassDraft]; rewrite ?E;
    cbn [draftInstrument withDrafts keysDraft bassDraft]; rewrite ?E;
    (split; [now apply setPianoCell_add_then_remove |]);
    unfold setPianoCell;
    pose proof (cellOn_findCell pitch step (keysDraft p)) as Hk;
    pose proof (cellOn_findCell pitch step (bassDraft p)) as Hb;
    rewrite Hoff in *.
  - destruct (findCell pitch step (keysDraft p)); [discriminate |].
    unfold cellOn. rewrite existsb_app. simpl.
    rewrite String.eqb_refl, Z.eqb_refl. apply orb_true_r.
  - destruct (findCell pitch step (bassDraft p)); [discriminate |].
    unfold cellOn. rewrite existsb_app. simpl.
    rewrite String.eqb_refl, Z.eqb_refl. apply orb_true_r.
Qed.

Lemma onSetPiano_add_then_remove_witness :
  currentPianoDraft
    (onSetPiano "G4" 5 false "id2" (onSetPiano "G4" 5 true "id1" keysEditor))
  = currentPianoDraft keysEditor
  /\ cellOn "G4" 5 (currentPianoDraft (onSetPiano "G4" 5 true "id1" keysEditor)) = true.
Proof.
  apply (onSetPiano_add_then_remove_restores_draft "G4" 5 "id1" "id2" keysEditor).
  - reflexivity.
  - discriminate.
  - reflexivity.
  - simpl. intros [H | []]. discriminate.
Defined.

(** ** Capacity on the states the peers produce *)









